(** * A shallow embedding of the ingestion and chat pipeline of
      Retrieval_Augmented_Generation_RAG_Chatbot.ipynb

    The notebook is glue around library calls; where a claim depends on
    what a library call does, the call is modelled after the library's
    implementation:
    - [CharacterTextSplitter(chunk_size=1000, chunk_overlap=200)] of
      langchain_text_splitters (default separator "\n\n", separator not
      kept, whitespace stripped, length function [len]);
    - [DirectoryLoader(folder, glob="**/*.md", loader_cls=TextLoader)]
      (hidden paths skipped, errors not silenced);
    - the Chroma collection behind [Chroma.from_documents] and
      [vectorstore.as_retriever()];
    - [ConversationBufferMemory] and [ConversationalRetrievalChain]. *)

From Stdlib Require Import Ascii String List Arith Lia Sorting.Sorted Permutation.
From stdpp Require Import base gmap list strings.
Import ListNotations.

Open Scope nat_scope.

(** Python [str] values holding document text: sequences of characters. *)
Abbreviation text := (list ascii).

(* ------------------------------------------------------------------ *)
(** ** The text splitter *)

Module Splitter.

(** Characters for which Python's [str.isspace] holds, a character being
    read as the code point U+0000..U+00FF: "\t" to "\r", U+001C to U+001F,
    the space, U+0085 (NEL) and U+00A0 (no-break space). *)
Definition is_space (c : ascii) : bool :=
  let n := nat_of_ascii c in
  ((9 <=? n) && (n <=? 13)) || ((28 <=? n) && (n <=? 32)) || (n =? 133) || (n =? 160).

Fixpoint lstrip (t : text) : text :=
  match t with
  | [] => []
  | c :: r => if is_space c then lstrip r else t
  end.

(** [str.strip()] *)
Definition strip (t : text) : text := rev (lstrip (rev (lstrip t))).

Definition newline : ascii := "010"%char.

(** The default separator of [CharacterTextSplitter]: "\n\n". *)
Definition separator : text := [newline; newline].

Definition is_nl (c : ascii) : bool := Ascii.eqb c newline.

(** [re.split(re.escape("\n\n"), text)]: leftmost, non-overlapping
    matches; [cur] accumulates the current piece in reverse. *)
Fixpoint re_split_nn (cur : text) (t : text) : list text :=
  match t with
  | [] => [rev cur]
  | c1 :: t1 =>
      match t1 with
      | [] => [rev (c1 :: cur)]
      | c2 :: t2 =>
          if is_nl c1 && is_nl c2 then rev cur :: re_split_nn [] t2
          else re_split_nn (c1 :: cur) t1
      end
  end.

(** [_split_text_with_regex(text, separator, keep_separator=False)]:
    the pieces, empty ones removed. *)
Definition split_text_with_regex (t : text) : list text :=
  List.filter (fun s => negb (bool_decide (s = []))) (re_split_nn [] t).

(** [separator.join(docs)] *)
Fixpoint join (sep : text) (l : list text) : text :=
  match l with
  | [] => []
  | [x] => x
  | x :: r => x ++ sep ++ join sep r
  end.

(** [_join_docs]: join, strip, and [None] for an empty result. *)
Definition join_docs (sep : text) (g : list text) : option text :=
  let t := strip (join sep g) in
  match t with
  | [] => None
  | _ => Some t
  end.

Section Merge.
Variables (chunk_size chunk_overlap : nat) (sep : text).

Definition sep_if (b : bool) : nat := if b then length sep else 0.

(** The inner [while] loop of [_merge_splits]: drop pieces from the
    front of [current_doc] while the running [total] exceeds the overlap
    or the next piece [_len] would not fit. *)
Fixpoint pop_front (len_d : nat) (cur : list text) (total : nat)
    : list text * nat :=
  match cur with
  | [] => ([], total)
  | x :: rest =>
      if (chunk_overlap <? total)
         || ((chunk_size <? total + len_d + sep_if true) && (0 <? total))
      then pop_front len_d rest
             (total - (length x + sep_if (bool_decide (1 < length cur))))
      else (cur, total)
  end.

(** One iteration of the [for d in splits] loop of [_merge_splits].
    The state is (emitted groups, [current_doc], [total]); a group is
    the list of pieces that [_join_docs] is applied to when emitted. *)
Definition merge_step (st : list (list text) * list text * nat) (d : text)
    : list (list text) * list text * nat :=
  let '(docs, cur, total) := st in
  let len := length d in
  if chunk_size <? total + len + sep_if (bool_decide (cur <> [])) then
    let docs' := if bool_decide (cur <> []) then docs ++ [cur] else docs in
    let '(cur', total') :=
      if bool_decide (cur <> []) then pop_front len cur total else (cur, total) in
    let cur'' := cur' ++ [d] in
    (docs', cur'', total' + len + sep_if (bool_decide (1 < length cur'')))
  else
    let cur'' := cur ++ [d] in
    (docs, cur'', total + len + sep_if (bool_decide (1 < length cur''))).

(** The groups of pieces that [_merge_splits] joins, in order, the last
    one being [current_doc] after the loop. *)
Definition merge_groups (splits : list text) : list (list text) :=
  let '(docs, cur, _) := fold_left merge_step splits ([], [], 0) in
  docs ++ [cur].

(** [_merge_splits(splits, separator)] *)
Definition merge_splits (splits : list text) : list text :=
  omap (join_docs sep) (merge_groups splits).

End Merge.

(** [CharacterTextSplitter(chunk_size=1000, chunk_overlap=200)] *)
Definition chunk_size : nat := 1000.
Definition chunk_overlap : nat := 200.

(** [CharacterTextSplitter.split_text] with the notebook's settings. *)
Definition split_text (t : text) : list text :=
  merge_splits chunk_size chunk_overlap separator (split_text_with_regex t).

(** Statement helpers: the window of pieces [l] between positions
    [w.1] (included) and [w.2] (excluded), and the relation between two
    consecutive windows of [_merge_splits]: the second one starts inside
    the first (or right after it), ends strictly later, and the pieces they
    share join to at most [chunk_overlap] characters. *)
Definition window (l : list text) (w : nat * nat) : list text :=
  take (w.2 - w.1) (drop w.1 l).

Definition carry_over (overlap : nat) (sep : text) (l : list text)
    (w1 w2 : nat * nat) : Prop :=
  w1.1 <= w2.1 /\ w2.1 <= w1.2 /\ w1.2 < w2.2 /\
  length (join sep (window l (w2.1, w1.2))) <= overlap.

(** Statement helper: [l1] occurs as a contiguous part of [l2]. *)
Definition infix {A} (l1 l2 : list A) : Prop := exists k1 k2, l2 = k1 ++ l1 ++ k2.

(** The state of the [for d in splits] loop of [_merge_splits] after [n]
    of the pieces [S]: the emitted groups and [current_doc] are consecutive
    windows over [S], [total] is the joined length of [current_doc], and
    groups of two or more pieces fit in [size]. *)
Definition merge_inv (size ov : nat) (sep : text) (S : list text) (n : nat)
    (st : list (list text) * list text * nat) : Prop :=
  let '(docs, cur, total) := st in
  exists ws s,
    docs = map (window S) ws /\ cur = window S (s, n) /\ s <= n /\
    LocallySorted (carry_over ov sep S) (ws ++ [(s, n)]) /\
    (hd (s, n) ws).1 = 0 /\
    total = length (join sep cur) /\
    (2 <= length cur -> total <= size) /\
    Forall (fun g => length g <= 1 \/ length (join sep g) <= size) docs.

End Splitter.

(* ------------------------------------------------------------------ *)
(** ** Exceptions *)

(** The exceptions that can abort a step of the notebook. *)
Inductive error :=
  | LoaderError (source : string)
      (** [TextLoader]: [RuntimeError(f"Error loading {file_path}")] when
          no detected encoding decodes the file *)
  | NotADirectory (path : string)
      (** [DirectoryLoader.load]: [ValueError("Expected directory, got file")] *)
  | APIError (msg : string)
      (** an error raised by the OpenAI embeddings or chat-completion call *)
  | ValueError (msg : string)
      (** Chroma's validation of [collection.upsert]: the batch holds no
          record *).

(** A Python call that returns a value or raises. *)
Inductive result (A : Type) :=
  | Ok (a : A)
  | Err (e : error).
Arguments Ok {A} a.
Arguments Err {A} e.

Global Instance result_ret : MRet result := fun A a => Ok a.
Global Instance result_bind : MBind result :=
  fun A B f m => match m with Ok a => f a | Err e => Err e end.

(* ------------------------------------------------------------------ *)
(** ** Documents and the loader *)

Module Loader.
Import Splitter.

(** [langchain.schema.Document]: [page_content] and a [metadata] dict. *)
Record Document := mkDocument {
  page_content : text;
  metadata : gmap string string
}.

(** A file of the knowledge base: its path relative to [knowledge-base]
    as a list of names, and its text, [None] when no encoding decodes it. *)
Record FileEntry := mkFileEntry {
  path : list string;
  contents : option text
}.

Definition kb_root : string := "knowledge-base".

(** [str(file_path)] of a file under the knowledge base. *)
Definition path_string (p : list string) : string :=
  String.concat "/" (kb_root :: p).

(** Names starting with a dot: skipped by [glob.glob] and, with
    [load_hidden=False], by [DirectoryLoader]. *)
Definition is_hidden (name : string) : bool :=
  match name with
  | String c _ => Ascii.eqb c "."%char
  | EmptyString => false
  end.

(** The name matches [*.md]. *)
Definition is_md (name : string) : bool :=
  bool_decide (take 3 (rev (list_ascii_of_string name)) = rev (list_ascii_of_string ".md")).

(** [glob.glob("knowledge-base/*")]: the visible entries of the root, in
    the (unspecified) order of the directory listing; [None] stands for a
    root directory that does not exist, for which [glob] returns []. *)
Definition root_entries (fs : option (list FileEntry)) : list string :=
  match fs with
  | None => []
  | Some files =>
      nodup string_dec
        (List.filter (fun n => negb (is_hidden n))
           (flat_map (fun e => match path e with n :: _ => [n] | [] => [] end) files))
  end.

(** The entry [name] of the root is a directory. *)
Definition is_dir (files : list FileEntry) (name : string) : bool :=
  existsb (fun e => match path e with
                    | n :: _ :: _ => String.eqb n name
                    | _ => false
                    end) files.

(** The files [DirectoryLoader(folder, glob="**/*.md")] picks: under
    [folder] at any depth, named [*.md], with no hidden component in the
    path relative to [folder]. *)
Definition selected (name : string) (e : FileEntry) : bool :=
  match path e with
  | n :: (_ :: _) as rest =>
      String.eqb n name && forallb (fun c => negb (is_hidden c)) rest
      && is_md (List.last rest ""%string)
  | _ => false
  end.

(** [TextLoader(file_path, autodetect_encoding=True).load()] *)
Definition text_load (e : FileEntry) : result Document :=
  match contents e with
  | Some t => Ok (mkDocument t (<["source" := path_string (path e)]> ∅))
  | None => Err (LoaderError (path_string (path e)))
  end.

Fixpoint load_all (es : list FileEntry) : result (list Document) :=
  match es with
  | [] => mret []
  | e :: rest => d ← text_load e; ds ← load_all rest; mret (d :: ds)
  end.

(** [DirectoryLoader(folder, ...).load()] (errors are not silenced). *)
Definition directory_load (files : list FileEntry) (name : string)
    : result (list Document) :=
  if is_dir files name then load_all (List.filter (selected name) files)
  else Err (NotADirectory (path_string [name])).

(** [add_metadata(doc, doc_type)], on the document's value. *)
Definition add_metadata (doc : Document) (doc_type : string) : Document :=
  mkDocument (page_content doc) (<["doc_type" := doc_type]> (metadata doc)).

(** [add_metadata] on a heap of document objects: [doc.metadata] of the
    object at [r] is updated in place and the same reference is returned. *)
Definition add_metadata_ref (h : gmap nat Document) (r : nat) (doc_type : string)
    : gmap nat Document * nat :=
  match h !! r with
  | Some doc => (<[r := add_metadata doc doc_type]> h, r)
  | None => (h, r)
  end.

(** The [for folder in folders] loop: [doc_type = os.path.basename(folder)]. *)
Fixpoint load_folders (files : list FileEntry) (folders : list string)
    : result (list Document) :=
  match folders with
  | [] => mret []
  | folder :: rest =>
      folder_docs ← directory_load files folder;
      docs ← load_folders files rest;
      mret (map (fun doc => add_metadata doc folder) folder_docs ++ docs)
  end.

(** The [documents] list of the notebook. *)
Definition load_documents (fs : option (list FileEntry)) : result (list Document) :=
  let files := match fs with Some files => files | None => [] end in
  load_folders files (root_entries fs).

(** [text_splitter.split_documents(documents)]: each chunk carries a copy
    of its document's metadata. *)
Definition split_documents (docs : list Document) : list Document :=
  flat_map (fun d => map (fun c => mkDocument c (metadata d)) (split_text (page_content d)))
    docs.

(** Statement helper: the immediate parent folder of a file path. *)
Definition parent_folder (p : list string) : string := List.last (removelast p) ""%string.

(** The [chunks] list of the notebook. *)
Definition ingest (fs : option (list FileEntry)) : result (list Document) :=
  docs ← load_documents fs; mret (split_documents docs).

(** Statement helper: a visible markdown file inside a visible
    first-level folder of the knowledge base, at any depth. *)
Definition in_scope (e : FileEntry) : bool :=
  match path e with
  | n :: (_ :: _) as rest =>
      negb (is_hidden n) && forallb (fun c => negb (is_hidden c)) rest
      && is_md (List.last rest ""%string)
  | _ => false
  end.

End Loader.

(* ------------------------------------------------------------------ *)
(** ** The Chroma vector store *)

Module Store.
Import Loader.

(** Embedding vectors; their float components and the distances between
    them are modelled as integers. *)
Abbreviation vector := (list Z).

(** A record of the collection: the chunk and its embedding. *)
Record Entry := mkEntry {
  entry_doc : Document;
  entry_vec : vector
}.

(** The [persist_directory="vector_db"] on disk: absent, or present with
    the default collection, [None] once that collection is deleted. *)
Inductive persist_dir :=
  | NoDir
  | Dir (coll : option (gmap nat Entry)).

(** Store state: the directory and the supply of fresh ids standing for
    [uuid.uuid4()]. *)
Record StoreState := mkStoreState {
  disk : persist_dir;
  next_uuid : nat
}.

Definition db_name : string := "vector_db".

Section Chroma.
Variable embed : text -> vector.
Variable dist : vector -> vector -> Z.

(** [os.path.exists(db_name)] *)
Definition db_exists (d : persist_dir) : bool :=
  match d with NoDir => false | Dir _ => true end.

(** [Chroma(persist_directory=db_name, ...)]: [get_or_create_collection]. *)
Definition open_collection (d : persist_dir) : gmap nat Entry :=
  match d with Dir (Some coll) => coll | _ => ∅ end.

(** [Chroma(...).delete_collection()] *)
Definition delete_collection (st : StoreState) : StoreState :=
  mkStoreState (Dir None) (next_uuid st).

(** [add_texts]: one fresh id per chunk, then [collection.upsert]. *)
Fixpoint add_texts (coll : gmap nat Entry) (next : nat) (chunks : list Document)
    : gmap nat Entry * nat :=
  match chunks with
  | [] => (coll, next)
  | c :: rest =>
      add_texts (<[next := mkEntry c (embed (page_content c))]> coll) (S next) rest
  end.

(** The store after a successful [add_texts] of the chunks. *)
Definition store_chunks (st : StoreState) (chunks : list Document) : StoreState :=
  let '(coll, next) := add_texts (open_collection (disk st)) (next_uuid st) chunks in
  mkStoreState (Dir (Some coll)) next.

(** The message of the [ValueError] raised by the upsert of an empty batch. *)
Definition empty_upsert_msg : string := "Expected IDs to be a non-empty list".

(** [Chroma.from_documents(documents=chunks, ..., persist_directory=db_name)]:
    [from_texts] passes all the chunks to [add_texts], whose
    [collection.upsert] raises [ValueError] when there is none; the
    [vectorstore] variable is then never assigned. *)
Definition from_documents (st : StoreState) (chunks : list Document)
    : result StoreState :=
  match chunks with
  | [] => Err (ValueError empty_upsert_msg)
  | _ :: _ => Ok (store_chunks st chunks)
  end.

(** The embedding cell: delete the old collection if the directory
    exists, then create the store from the chunks. *)
Definition rebuild (st : StoreState) (chunks : list Document) : result StoreState :=
  let st1 := if db_exists (disk st) then delete_collection st else st in
  from_documents st1 chunks.

(** [vectorstore._collection.count()] *)
Definition count (st : StoreState) : nat := size (open_collection (disk st)).

Fixpoint insert_by (key : Entry -> Z) (e : Entry) (l : list Entry) : list Entry :=
  match l with
  | [] => [e]
  | x :: r => if (key e <=? key x)%Z then e :: l else x :: insert_by key e r
  end.

Definition sort_by (key : Entry -> Z) (l : list Entry) : list Entry :=
  fold_right (insert_by key) [] l.

(** [collection.query(query_embeddings=[v], n_results=k)]: [n_results]
    is lowered to the number of elements when it exceeds it, and the
    results come nearest first. Chroma searches an approximate (HNSW)
    index, which may miss some of the nearest entries; the model takes the
    exact nearest ones, and only the number of results and their order
    are relied on below. *)
Definition query (coll : gmap nat Entry) (v : vector) (k : nat) : list Entry :=
  let n := if size coll <? k then size coll else k in
  take n (sort_by (fun e => dist v (entry_vec e)) (map snd (map_to_list coll))).

(** [vectorstore.as_retriever(search_kwargs={"k": k})] on a question. *)
Definition retrieve (coll : gmap nat Entry) (k : nat) (question : string)
    : list Document :=
  map entry_doc (query coll (embed (list_ascii_of_string question)) k).

(** [as_retriever()] without [search_kwargs] uses [k = 4]. *)
Definition default_k : nat := 4.
End Chroma.

(** [collection.get(limit=limit, include=["embeddings"])["embeddings"]]:
    the first [limit] embeddings in the collection's internal order. *)
Definition get_embeddings (coll : gmap nat Entry) (limit : nat) : list vector :=
  take limit (map (fun kv => entry_vec kv.2) (map_to_list coll)).

(** The cell that investigates the vectors: [count] and the [dimensions]
    of [sample_embedding]; [None] stands for the [IndexError] raised by
    [[0]] when [get] returns no embedding. *)
Definition inspect_vectors (st : StoreState) : option (nat * nat) :=
  let collection := open_collection (disk st) in
  match get_embeddings collection 1 with
  | sample_embedding :: _ => Some (count st, length sample_embedding)
  | [] => None
  end.

End Store.

(** The ingestion cells and the embedding cell, run in order: the
    [documents], the [chunks], then the vector store. *)
Module Notebook.
Import Loader Store.


End Notebook.

(* ------------------------------------------------------------------ *)
(** ** Conversation memory and the conversational retrieval chain *)

Module Chat.
Import Loader.

(** The messages of [ConversationBufferMemory(return_messages=True)]. *)
Inductive Message :=
  | HumanMessage (content : string)
  | AIMessage (content : string).

Record Memory := mkMemory { messages : list Message }.

(** The chain runs against the memory: a state monad whose steps may
    raise; a raised exception leaves the memory as it was at that point. *)
Definition M (A : Type) : Type := Memory -> result A * Memory.

Definition ret {A} (a : A) : M A := fun m => (Ok a, m).
Definition bindM {A B} (x : M A) (f : A -> M B) : M B :=
  fun m => match x m with
           | (Ok a, m') => f a m'
           | (Err e, m') => (Err e, m')
           end.
Definition lift {A} (r : result A) : M A := fun m => (r, m).

Notation "x <-- c ;; k" := (bindM c (fun x => k))
  (at level 100, c at next level, right associativity).

(** [memory.load_memory_variables({})["chat_history"]] *)
Definition load_history : M (list Message) := fun m => (Ok (messages m), m).

(** [memory.save_context({"question": q}, {"answer": a})] *)
Definition save_context (q a : string) : M unit :=
  fun m => (Ok tt, mkMemory (messages m ++ [HumanMessage q; AIMessage a])).

(** The turns of the buffer, in order. *)
Fixpoint turns (msgs : list Message) : list (string * string) :=
  match msgs with
  | HumanMessage q :: AIMessage a :: rest => (q, a) :: turns rest
  | _ => []
  end.

Definition history (m : Memory) : list (string * string) := turns (messages m).

(** Statement helper: the messages that a list of turns is saved as. *)
Definition turn_messages (ts : list (string * string)) : list Message :=
  flat_map (fun '(q, a) => [HumanMessage q; AIMessage a]) ts.

Section Chain.
(** The LLM call of [question_generator] (condense the question with the
    chat history), the retriever, and the LLM call of the stuff
    [combine_docs_chain]; each may raise. *)
Variable condense_llm : list Message -> string -> result string.
Variable retriever : string -> result (list Document).
Variable answer_llm : list Document -> string -> result string.

(** [if chat_history_str: new_question = question_generator.run(...)] *)
Definition standalone_question (hist : list Message) (q : string) : result string :=
  match hist with
  | [] => Ok q
  | _ => condense_llm hist q
  end.

(** [conversation_chain.invoke({"question": question})]: load the
    memory, [_call], then save the turn. *)
Definition chain_invoke (question : string) : M string :=
  hist <-- load_history ;;
  new_question <-- lift (standalone_question hist question) ;;
  docs <-- lift (retriever new_question) ;;
  answer <-- lift (answer_llm docs new_question) ;;
  _ <-- save_context question answer ;;
  ret answer.

(** [def chat(question, history)] of the notebook; [history] is the
    Gradio message list [{"role": ..., "content": ...}]. *)
Definition chat (question : string) (history : list (string * string)) : M string :=
  answer <-- chain_invoke question ;;
  ret answer.

(** A Gradio session: each question is sent with the messages displayed
    so far. Gradio catches the exception of a turn and shows it, and the
    next question is still served: the session yields the outcome of every
    turn. A failed turn adds no message to [ui] here; [chat] never reads
    its [history] argument, so this choice affects no answer. *)
Fixpoint session (questions : list string) (ui : list (string * string))
    (m : Memory) : list (result string) * Memory :=
  match questions with
  | [] => ([], m)
  | q :: rest =>
      let '(r, m1) := chat q ui m in
      let ui1 := match r with
                 | Ok a => ui ++ [("user"%string, q); ("assistant"%string, a)]
                 | Err _ => ui
                 end in
      let '(rs, m2) := session rest ui1 m1 in
      (r :: rs, m2)
  end.
End Chain.

(** The question asked in the debugging cell. *)
Definition debug_query : string := "Who received the NFL MVP award in 2019?".

(** A fresh [ConversationBufferMemory(...)] assigned to [memory]. *)
Definition new_memory : M unit := fun _ => (Ok tt, mkMemory []).

Section DebugCell.
(** One [llm] for both chains of the cell: its condensing call and its
    answering call; the first chain retrieves with [as_retriever()]
    ([k = 4]), the second one with [search_kwargs={"k": 25}]. *)
Variable condense_llm : list Message -> string -> result string.
Variable answer_llm : list Document -> string -> result string.
Variable retriever_k4 retriever_k25 : string -> result (list Document).

(** The debugging cell: a new [memory], the chain with the callback
    handler invoked on [query], then a second chain built on the same
    [memory] and served through Gradio for the [questions] typed there. *)
Definition debug_cell (questions : list string) : M (string * list (result string)) :=
  _ <-- new_memory ;;
  answer <-- chain_invoke condense_llm retriever_k4 answer_llm debug_query ;;
  outcomes <-- (fun m => let '(rs, m') := session condense_llm retriever_k25 answer_llm
                                          questions [] m in (Ok rs, m')) ;;
  ret (answer, outcomes).
End DebugCell.

End Chat.

(* ------------------------------------------------------------------ *)
(** ** Sample inputs *)

Module Samples.
Import Splitter Loader Chat.

(** Sample texts. *)
Definition para_a : text := replicate 600 "a"%char.
Definition para_b : text := replicate 600 "b"%char.
Definition long_line : text := replicate 1001 "a"%char.

(** A knowledge base with one file nested two levels deep. *)
Definition nested_files : list FileEntry :=
  [mkFileEntry ["policies"; "hr"; "leave.md"]%string
     (Some (list_ascii_of_string "Annual leave: 25 days."))].

Definition nested_chunk : Document :=
  mkDocument (list_ascii_of_string "Annual leave: 25 days.")
    (<["doc_type" := "policies"]> (<["source" := "knowledge-base/policies/hr/leave.md"]> ∅))%string.

Definition sample_doc : Document :=
  mkDocument (list_ascii_of_string "Our refund policy")
    (<["source" := "knowledge-base/policies/refunds.md"]> ∅)%string.

Definition condense_id : list Message -> string -> result string := fun _ q => Ok q.
Definition retrieve_none : string -> result (list Document) := fun _ => Ok [].
Definition answer_ok : list Document -> string -> result string :=
  fun _ q => Ok ("Answer to " ++ q)%string.
Definition answer_down : list Document -> string -> result string :=
  fun _ _ => Err (APIError "Connection error.").
Definition condense_down : list Message -> string -> result string :=
  fun _ _ => Err (APIError "Rate limit reached.").

(** A knowledge base with a hidden folder, a hidden draft, an image and
    three markdown files in two folders. *)
Definition mixed_files : list FileEntry :=
  [mkFileEntry ["policies"; "refunds.md"]%string (Some (list_ascii_of_string "Refunds within 30 days."));
   mkFileEntry ["policies"; "hr"; "leave.md"]%string (Some (list_ascii_of_string "Annual leave: 25 days."));
   mkFileEntry ["policies"; "logo.png"]%string None;
   mkFileEntry [".git"; "config"]%string None;
   mkFileEntry ["products"; ".draft.md"]%string (Some (list_ascii_of_string "TODO"));
   mkFileEntry ["products"; "widget.md"]%string (Some (list_ascii_of_string "A widget."))].

(** An image dropped into an existing folder; it cannot be decoded. *)
Definition logo_file : FileEntry := mkFileEntry ["policies"; "banner.png"]%string None.

(** A two-dimensional embedding. *)
Definition sample_embed (t : text) : Store.vector := [Z.of_nat (length t); 0%Z].

(** A store already holding one vector under id 0. *)
Definition stale_store : Store.StoreState :=
  Store.mkStoreState (Store.Dir (Some {[0 := Store.mkEntry sample_doc [1%Z; 0%Z]]})) 1.

End Samples.

(* ================================================================== *)
(** * Properties of the model *)

Module SplitterFacts.
Import Splitter.

Lemma lstrip_length (t : text) : length (lstrip t) <= length t.
Proof. induction t as [|c r IH]; simpl; [lia|]. destruct (is_space c); simpl; lia. Qed.

Lemma strip_length (t : text) : length (strip t) <= length t.
Proof.
  unfold strip. rewrite length_rev.
  pose proof (lstrip_length (rev (lstrip t))). rewrite length_rev in H.
  pose proof (lstrip_length t). lia.
Qed.

(** Settle [bool_decide] on the (non)emptiness of concrete lists. *)
Ltac decide_emptiness :=
  repeat first
    [ rewrite bool_decide_true by (simpl; first [split; congruence | congruence | lia])
    | rewrite bool_decide_false by (simpl; first [intros [? ?]; congruence | congruence | lia])
    | match goal with
      | H : context [bool_decide ?P] |- _ =>
          first [ rewrite (bool_decide_true P) in H by (simpl; first [split; congruence | congruence | lia])
                | rewrite (bool_decide_false P) in H by (simpl; first [intros [? ?]; congruence | congruence | lia]) ]
      end ].

Section Chains.
Context {A : Type} (R : A -> A -> Prop).

Lemma LocallySorted_snoc_replace (l : list A) (x x' : A) :
  LocallySorted R (l ++ [x]) -> (forall y, R y x -> R y x') ->
  LocallySorted R (l ++ [x']).
Proof.
  intros H Hr. induction l as [|a [|b l] IH]; simpl in *.
  - constructor.
  - inversion H; subst. constructor; [constructor|auto].
  - inversion H; subst. constructor; auto.
Qed.

Lemma LocallySorted_snoc (l : list A) (x y : A) :
  LocallySorted R (l ++ [x]) -> R x y -> LocallySorted R ((l ++ [x]) ++ [y]).
Proof.
  intros H Hr. induction l as [|a [|b l] IH]; simpl in *.
  - constructor; [constructor|auto].
  - inversion H; subst. constructor; [|auto]. constructor; [constructor|auto].
  - inversion H; subst. constructor; auto.
Qed.
End Chains.

Section Windows.
Context (S : list text).

Lemma window_snoc (s n : nat) (d : text) :
  s <= n -> S !! n = Some d ->
  window S (s, n) ++ [d] = window S (s, Datatypes.S n).
Proof.
  intros Hs Hd. unfold window; simpl.
  replace (Datatypes.S n - s) with (Datatypes.S (n - s)) by lia.
  symmetry. apply take_S_r. rewrite lookup_drop.
  replace (s + (n - s)) with n by lia. exact Hd.
Qed.

Lemma window_suffix (s n : nat) (a cur' : list text) :
  n <= length S -> s <= n ->
  window S (s, n) = a ++ cur' ->
  s + length a <= n /\ cur' = window S (s + length a, n).
Proof.
  intros Hn Hs Hw.
  assert (Hl : length (window S (s, n)) = n - s).
  { unfold window; simpl. rewrite length_take, length_drop. lia. }
  rewrite Hw, length_app in Hl. split; [lia|].
  assert (Hd : drop (length a) (window S (s, n)) = cur').
  { rewrite Hw, drop_app_length. done. }
  rewrite <- Hd. unfold window; simpl.
  rewrite skipn_firstn_comm, drop_drop. f_equal. lia.
Qed.

Lemma window_elem (w : nat * nat) (x : text) : x ∈ window S w -> x ∈ S.
Proof.
  unfold window. intros Hx.
  apply (subseteq_drop w.1 S), (subseteq_take (w.2 - w.1)). exact Hx.
Qed.
End Windows.

Section Facts.
Variables (size ov : nat) (sep : text).

Lemma join_cons_length (x : text) (r : list text) :
  length (join sep (x :: r)) =
    length x + sep_if sep (bool_decide (r <> [])) + length (join sep r).
Proof.
  unfold sep_if. case_bool_decide as Hr; destruct r as [|y r]; try congruence.
  - simpl join. rewrite !length_app. lia.
  - simpl. lia.
Qed.

Lemma join_snoc_length (l : list text) (d : text) :
  length (join sep (l ++ [d])) =
    length (join sep l) + sep_if sep (bool_decide (l <> [])) + length d.
Proof.
  induction l as [|x l IH].
  - cbn [app join length]. unfold sep_if.
    rewrite bool_decide_false by congruence. lia.
  - simpl app. rewrite join_cons_length, IH, (join_cons_length x l).
    unfold sep_if. repeat case_bool_decide; destruct l; simpl in *; try congruence; lia.
Qed.

Lemma join_nonempty_pos (l : list text) :
  Forall (fun x => x <> []) l -> l <> [] -> 0 < length (join sep l).
Proof.
  intros Hne Hl. destruct l as [|x r]; [congruence|].
  rewrite join_cons_length. inversion Hne; subst.
  destruct x; [congruence|]. simpl. lia.
Qed.

(** The [while] loop keeps a suffix of [current_doc], keeps [total]
    equal to its joined length, and stops with the suffix empty or
    within the overlap and leaving room for the next piece. *)
Lemma pop_front_spec (len : nat) (cur : list text) (total : nat) :
  total = length (join sep cur) ->
  Forall (fun x => x <> []) cur ->
  let '(cur', total') := pop_front size ov sep len cur total in
  (exists a, cur = a ++ cur') /\ total' = length (join sep cur') /\
  (cur' = [] \/ (total' <= ov /\ total' + len + length sep <= size)).
Proof.
  revert total. induction cur as [|x rest IH]; intros total Ht Hne; simpl.
  - split; [exists []; done|]. simpl in Ht. auto.
  - inversion Hne as [|? ? Hx Hrest]; subst.
    destruct (_ || _) eqn:Hc.
    + assert (Hj : length (join sep (x :: rest)) -
                   (length x + sep_if sep (bool_decide (1 < length (x :: rest)))) =
                   length (join sep rest)).
      { rewrite join_cons_length. unfold sep_if.
        repeat case_bool_decide; destruct rest; simpl in *; try congruence; lia. }
      change (length (x :: rest)) with (S (length rest)) in Hj. rewrite Hj.
      specialize (IH (length (join sep rest)) eq_refl Hrest).
      destruct (pop_front size ov sep len rest _) as [cur' total'].
      destruct IH as [[a Ha] IH]. split; [exists (x :: a); subst; done|]. exact IH.
    + split; [exists []; done|]. split; [done|]. right.
      apply orb_false_iff in Hc as [H1 H2].
      apply Nat.ltb_ge in H1.
      assert (0 < length (join sep (x :: rest))).
      { apply join_nonempty_pos; [constructor; auto|congruence]. }
      apply andb_false_iff in H2 as [H2|H2].
      * apply Nat.ltb_ge in H2. unfold sep_if in H2. lia.
      * apply Nat.ltb_ge in H2. lia.
Qed.

Lemma join_app_length (l1 l2 : list text) :
  length (join sep (l1 ++ l2)) =
    length (join sep l1) +
    sep_if sep (bool_decide (l1 <> [] /\ l2 <> [])) + length (join sep l2).
Proof.
  induction l1 as [|x l1 IH].
  - cbn [app join length]. unfold sep_if. rewrite bool_decide_false by tauto. lia.
  - simpl app. rewrite !join_cons_length, IH. unfold sep_if.
    destruct l1, l2; simpl app; decide_emptiness; lia.
Qed.

Lemma join_filter_length (l : list text) :
  length (join sep (List.filter (fun s => negb (bool_decide (s = []))) l))
    <= length (join sep l).
Proof.
  induction l as [|x l IH]; [simpl; lia|].
  cbn [List.filter]. rewrite (join_cons_length x l).
  destruct (negb _) eqn:Hx; [|lia].
  rewrite join_cons_length. unfold sep_if in *.
  destruct (List.filter _ l) as [|y r] eqn:Hf; destruct l as [|z l];
    try discriminate; decide_emptiness; cbn [join length] in *; lia.
Qed.

(** While everything fits, the loop only appends to [current_doc]. *)
Lemma merge_fold_fits (l acc : list text) :
  length (join sep (acc ++ l)) <= size ->
  fold_left (merge_step size ov sep) l ([], acc, length (join sep acc)) =
    ([], acc ++ l, length (join sep (acc ++ l))).
Proof.
  revert acc. induction l as [|d l IH]; intros acc Hfit; cbn [fold_left].
  - rewrite app_nil_r. done.
  - assert (Hstep : merge_step size ov sep ([], acc, length (join sep acc)) d =
                    ([], acc ++ [d], length (join sep (acc ++ [d])))).
    { unfold merge_step.
      rewrite join_app_length in Hfit.
      rewrite (join_snoc_length acc d).
      assert (Hle : length (join sep acc) + length d +
                    sep_if sep (bool_decide (acc <> [])) <= size).
      { rewrite join_cons_length in Hfit. unfold sep_if in *.
        destruct acc, l; simpl app in *; decide_emptiness; cbn [join length] in *; lia. }
      destruct (size <? _) eqn:Hc; [apply Nat.ltb_lt in Hc; lia|].
      f_equal. unfold sep_if. rewrite length_app.
      destruct acc; simpl length; decide_emptiness; lia. }
    rewrite Hstep. rewrite (IH (acc ++ [d])); rewrite <- app_assoc; done.
Qed.

Lemma merge_groups_fits (S : list text) :
  length (join sep S) <= size -> merge_groups size ov sep S = [S].
Proof.
  intros Hfit. unfold merge_groups.
  pose proof (merge_fold_fits S [] Hfit) as Hf. simpl in Hf. rewrite Hf. done.
Qed.

Section Invariant.
Variable S : list text.
Hypothesis S_nonempty : Forall (fun x => x <> []) S.

Lemma window_nonempty (w : nat * nat) :
  Forall (fun x => x <> []) (window S w).
Proof.
  apply Forall_forall. intros x Hx.
  apply (window_elem S w x) in Hx.
  rewrite Forall_forall in S_nonempty. apply S_nonempty. exact Hx.
Qed.

Lemma merge_inv_init : merge_inv size ov sep S 0 ([], [], 0).
Proof.
  exists [], 0. simpl. repeat split; try constructor; try lia.
Qed.

Lemma merge_inv_step (n : nat) (st : list (list text) * list text * nat) (d : text) :
  n < length S -> S !! n = Some d -> merge_inv size ov sep S n st ->
  merge_inv size ov sep S (Datatypes.S n) (merge_step size ov sep st d).
Proof.
  destruct st as [[docs cur] total].
  intros Hn Hd (ws & s & Hdocs & Hcur & Hs & Hch & Hhd & Ht & Hsz & Hfd).
  assert (Hdne : d <> []).
  { rewrite Forall_forall in S_nonempty. apply S_nonempty.
    apply list_elem_of_lookup. eauto. }
  assert (Hcne := window_nonempty (s, n)). rewrite <- Hcur in Hcne.
  unfold merge_step.
  destruct (size <? _) eqn:Hc.
  - case_bool_decide as Hcur0.
    + (* [current_doc] is emitted, then trimmed *)
      pose proof (pop_front_spec (length d) cur total Ht Hcne) as Hp.
      destruct (pop_front size ov sep (length d) cur total) as [cur' total'] eqn:Hpop.
      destruct Hp as [[a Ha] [Ht' Hrest]].
      rewrite Hcur in Ha. apply window_suffix in Ha as [Hsa Hcur']; [|lia|exact Hs].
      exists (ws ++ [(s, n)]), (s + length a).
      split; [rewrite map_app, Hdocs, Hcur; done|].
      split; [rewrite Hcur'; apply window_snoc; [lia|exact Hd]|].
      split; [lia|].
      split.
      { apply LocallySorted_snoc; [exact Hch|].
        unfold carry_over; simpl. repeat split; try lia.
        rewrite <- Hcur'. destruct Hrest as [->|[Hov _]]; simpl; lia. }
      split; [destruct ws; simpl in *; auto|].
      split.
      { rewrite join_snoc_length, Ht'. unfold sep_if.
        repeat case_bool_decide; destruct cur' as [|? [|]]; simpl in *;
          try congruence; lia. }
      split.
      { intros H2. rewrite Ht'. destruct Hrest as [->|[Hov Hroom]].
        - simpl in H2. lia.
        - unfold sep_if. destruct cur' as [|c cs]; [simpl in H2; lia|].
          rewrite bool_decide_true by (rewrite length_app; simpl; lia). lia. }
      apply Forall_app. split; [exact Hfd|]. constructor; [|constructor].
      destruct (decide (length cur <= 1)) as [|Hl]; [left; done|right].
      rewrite <- Ht. apply Hsz. lia.
    + (* [current_doc] is empty: nothing is emitted *)
      subst cur.
      exists ws, s. repeat split; auto.
      * transitivity (window S (s, n) ++ [d]); [rewrite Hcur0; done|apply window_snoc; [exact Hs|exact Hd]].
      * apply (LocallySorted_snoc_replace _ _ (s, n)); [exact Hch|].
        intros y (H1 & H2 & H3 & H4). unfold carry_over; simpl in *.
        repeat split; lia.
      * destruct ws; simpl in *; auto.
      * rewrite join_snoc_length. unfold sep_if.
        rewrite Hcur0 in Ht |- *. rewrite (bool_decide_false (1 < _)), (bool_decide_false ([] <> [])) by (simpl; first [lia|congruence]). simpl in Ht |- *. lia.
      * rewrite Hcur0. simpl. intros H2. lia.
  - (* the piece fits: it is appended *)
    apply Nat.ltb_ge in Hc.
    exists ws, s. repeat split; auto.
    + rewrite Hcur. apply window_snoc; [exact Hs|exact Hd].
    + apply (LocallySorted_snoc_replace _ _ (s, n)); [exact Hch|].
      intros y (H1 & H2 & H3 & H4). unfold carry_over; simpl in *.
      repeat split; lia.
    + destruct ws; simpl in *; auto.
    + rewrite join_snoc_length, Ht. unfold sep_if.
      repeat case_bool_decide; destruct cur as [|? [|]]; simpl in *;
        try congruence; lia.
    + intros H2. unfold sep_if in *. rewrite length_app in H2; simpl in H2.
      repeat case_bool_decide; destruct cur; simpl in *; try congruence; lia.
Qed.

Lemma merge_inv_fold (l : list text) (n : nat) st :
  n <= length S -> l = drop n S -> merge_inv size ov sep S n st ->
  merge_inv size ov sep S (length S) (fold_left (merge_step size ov sep) l st).
Proof.
  revert n st. induction l as [|d l IH]; intros n st Hn Hl Hinv; simpl.
  - symmetry in Hl. apply drop_nil_inv in Hl.
    replace (length S) with n by lia. exact Hinv.
  - assert (Hd : S !! n = Some d).
    { rewrite <- (Nat.add_0_r n), <- lookup_drop, <- Hl. done. }
    assert (Hlt : n < length S).
    { apply lookup_lt_Some in Hd. exact Hd. }
    apply (IH (Datatypes.S n)); [lia| |].
    + rewrite (drop_S S d n Hd) in Hl. congruence.
    + apply merge_inv_step; assumption.
Qed.

(** The groups of [_merge_splits] are consecutive windows over the
    pieces, from the first piece to the last, and a group of two or
    more pieces joins to at most [size] characters. *)
Lemma merge_groups_windows :
  exists ws,
    merge_groups size ov sep S = map (window S) ws /\
    LocallySorted (carry_over ov sep S) ws /\
    (hd (0, 0) ws).1 = 0 /\ (List.last ws (0, 0)).2 = length S /\
    Forall (fun g => length g <= 1 \/ length (join sep g) <= size)
      (merge_groups size ov sep S).
Proof.
  pose proof (merge_inv_fold S 0 ([], [], 0) ltac:(lia) eq_refl merge_inv_init) as Hf.
  unfold merge_groups.
  destruct (fold_left _ S _) as [[docs cur] total].
  destruct Hf as (ws & s & Hdocs & Hcur & Hs & Hch & Hhd & Ht & Hsz & Hfd).
  exists (ws ++ [(s, length S)]). split; [rewrite map_app, Hdocs, Hcur; done|].
  split; [exact Hch|]. split; [destruct ws; simpl in *; auto|].
  split; [rewrite List.last_last; done|].
  apply Forall_app. split; [exact Hfd|]. constructor; [|constructor].
  destruct (decide (length cur <= 1)) as [|Hl]; [left; done|right].
  rewrite <- Ht. apply Hsz. lia.
Qed.

Lemma merge_splits_bounded (c : text) :
  c ∈ merge_splits size ov sep S ->
  length c <= size \/ exists p, p ∈ S /\ c = strip p.
Proof.
  intros Hc. unfold merge_splits in Hc.
  apply list_elem_of_omap in Hc as (g & Hg & Hj).
  destruct merge_groups_windows as (ws & Hws & _ & _ & _ & Hfor).
  rewrite Forall_forall in Hfor. specialize (Hfor g Hg).
  unfold join_docs in Hj.
  destruct (strip (join sep g)) as [|x r] eqn:Hs; [discriminate|].
  injection Hj as <-.
  destruct g as [|p [|q g]].
  - discriminate.
  - right. exists p. split; [|simpl in Hs; done].
    rewrite Hws in Hg. apply list_elem_of_In, in_map_iff in Hg as (w & Hw & _).
    apply (window_elem S w). rewrite Hw. constructor.
  - destruct Hfor as [Hfor|Hfor]; [simpl in Hfor; lia|].
    left. rewrite <- Hs. pose proof (strip_length (join sep (p :: q :: g))). lia.
Qed.

End Invariant.

End Facts.
Lemma re_split_nn_step (cur : text) (c1 c2 : ascii) (t2 : text) :
  re_split_nn cur (c1 :: c2 :: t2) =
    if is_nl c1 && is_nl c2 then rev cur :: re_split_nn [] t2
    else re_split_nn (c1 :: cur) (c2 :: t2).
Proof. reflexivity. Qed.

Lemma re_split_nn_not_nil (t cur : text) : re_split_nn cur t <> [].
Proof.
  revert cur. induction t as [|c1 t1 IH]; intros cur; [simpl; congruence|].
  destruct t1 as [|c2 t2]; [simpl; congruence|].
  rewrite re_split_nn_step. destruct (_ && _); [congruence|apply IH].
Qed.

(** Splitting on "\n\n" and joining with "\n\n" gives the text back. *)
Lemma join_re_split_nn (n : nat) (t cur : text) :
  length t <= n -> join separator (re_split_nn cur t) = rev cur ++ t.
Proof.
  revert t cur. induction n as [|n IH]; intros t cur Hn.
  - destruct t; [simpl; rewrite app_nil_r; done|simpl in Hn; lia].
  - destruct t as [|c1 [|c2 t2]].
    + simpl. rewrite app_nil_r. done.
    + simpl. done.
    + rewrite re_split_nn_step.
      destruct (is_nl c1 && is_nl c2) eqn:Hnl.
      * apply andb_true_iff in Hnl as [H1 H2].
        unfold is_nl in H1, H2. apply Ascii.eqb_eq in H1, H2. subst c1 c2.
        assert (Hr : re_split_nn [] t2 <> []) by apply re_split_nn_not_nil.
        destruct (re_split_nn [] t2) as [|y r] eqn:Hy; [congruence|].
        change (join separator (rev cur :: y :: r))
          with (rev cur ++ separator ++ join separator (y :: r)).
        rewrite <- Hy, IH by (simpl in Hn; lia). simpl. done.
      * rewrite IH by (simpl in *; lia). simpl. rewrite <- app_assoc. done.
Qed.

Lemma split_pieces_length (t : text) :
  length (join separator (split_text_with_regex t)) <= length t.
Proof.
  unfold split_text_with_regex.
  etransitivity; [apply join_filter_length|].
  rewrite (join_re_split_nn (length t) t [] (le_n _)). simpl. lia.
Qed.

Lemma split_pieces_nonempty (t : text) :
  Forall (fun x => x <> []) (split_text_with_regex t).
Proof.
  apply Forall_forall. intros x Hx. apply list_elem_of_In, filter_In in Hx as [_ Hx].
  apply negb_true_iff in Hx. case_bool_decide; congruence.
Qed.

End SplitterFacts.

Module LoaderFacts.
Import Splitter Loader.

(** Unfold a [result] bind on its cases. *)
Ltac destruct_bind H :=
  unfold mbind, result_bind, mret, result_ret in H;
  match type of H with
  | context [match ?m with Ok _ => _ | Err _ => _ end] =>
      let r := fresh "r" in
      let Hr := fresh "Hr" in
      destruct m as [r|?] eqn:Hr; [|discriminate H]
  end.

Lemma load_all_ok (es : list FileEntry) (docs : list Document) :
  load_all es = Ok docs ->
  forall d, d ∈ docs -> exists e, e ∈ es /\
    metadata d = <["source" := path_string (path e)]> ∅.
Proof.
  revert docs. induction es as [|e es IH]; intros docs H d Hd; simpl in H.
  - unfold mret, result_ret in H. injection H as <-.
    apply elem_of_nil in Hd. contradiction.
  - destruct_bind H. destruct_bind H. injection H as <-.
    apply elem_of_cons in Hd as [->|Hd].
    + exists e. split; [constructor|].
      unfold text_load in Hr. destruct (contents e); [|discriminate].
      injection Hr as <-. done.
    + destruct (IH _ eq_refl d Hd) as (e' & He' & Hm).
      exists e'. split; [constructor; done|done].
Qed.

Lemma selected_path (name : string) (e : FileEntry) :
  selected name e = true -> exists rest, path e = name :: rest /\ rest <> [].
Proof.
  unfold selected. destruct (path e) as [|n [|x rest]]; try discriminate.
  intros H. apply andb_true_iff in H as [H _]. apply andb_true_iff in H as [H _].
  apply String.eqb_eq in H. subst n. exists (x :: rest). split; congruence.
Qed.

Lemma directory_load_ok (files : list FileEntry) (name : string) (docs : list Document) :
  directory_load files name = Ok docs ->
  forall d, d ∈ docs -> exists e rest, e ∈ files /\ path e = name :: rest /\ rest <> [] /\
    metadata d = <["source" := path_string (name :: rest)]> ∅.
Proof.
  unfold directory_load. destruct (is_dir files name); [|discriminate].
  intros H d Hd. destruct (load_all_ok _ _ H d Hd) as (e & He & Hm).
  apply list_elem_of_In, filter_In in He as [He Hsel].
  destruct (selected_path name e Hsel) as (rest & Hp & Hne).
  exists e, rest. rewrite <- Hp. repeat split; auto. apply list_elem_of_In. exact He.
Qed.

Lemma load_folders_ok (files : list FileEntry) (folders : list string) (docs : list Document) :
  load_folders files folders = Ok docs ->
  forall d, d ∈ docs -> exists e folder rest, e ∈ files /\ path e = folder :: rest /\
    rest <> [] /\
    metadata d = <["doc_type" := folder]> (<["source" := path_string (folder :: rest)]> ∅).
Proof.
  revert docs. induction folders as [|f folders IH]; intros docs H d Hd; simpl in H.
  - unfold mret, result_ret in H. injection H as <-.
    apply elem_of_nil in Hd. contradiction.
  - destruct_bind H. destruct_bind H. injection H as <-.
    apply elem_of_app in Hd as [Hd|Hd].
    + apply list_elem_of_In, in_map_iff in Hd as (d0 & <- & Hd0).
      apply list_elem_of_In in Hd0.
      destruct (directory_load_ok _ _ _ Hr d0 Hd0) as (e & rest & He & Hp & Hne & Hm).
      exists e, f, rest. repeat split; auto. simpl. rewrite Hm. done.
    + exact (IH _ eq_refl d Hd).
Qed.

Lemma split_documents_metadata (docs : list Document) (c : Document) :
  c ∈ split_documents docs -> exists d, d ∈ docs /\ metadata c = metadata d.
Proof.
  unfold split_documents. intros Hc.
  apply list_elem_of_In, in_flat_map in Hc as (d & Hd & Hc).
  apply in_map_iff in Hc as (t & <- & _).
  exists d. split; [apply list_elem_of_In; exact Hd|done].
Qed.

Lemma ingest_chunk_metadata (fs : option (list FileEntry)) (chunks : list Document)
    (c : Document) :
  ingest fs = Ok chunks -> c ∈ chunks ->
  exists files e folder rest, fs = Some files /\ e ∈ files /\
    path e = folder :: rest /\ rest <> [] /\
    metadata c = <["doc_type" := folder]> (<["source" := path_string (folder :: rest)]> ∅).
Proof.
  unfold ingest. intros H Hc. destruct_bind H. injection H as <-.
  destruct (split_documents_metadata _ _ Hc) as (d & Hd & Hm).
  unfold load_documents in Hr.
  destruct fs as [files|].
  - destruct (load_folders_ok _ _ _ Hr d Hd) as (e & folder & rest & He & Hp & Hne & Hmd).
    exists files, e, folder, rest. rewrite Hm. auto.
  - simpl in Hr. injection Hr as <-. apply elem_of_nil in Hd. contradiction.
Qed.

End LoaderFacts.

Module StoreFacts.
Import Loader Store.

Section Facts.
Variable embed : text -> vector.
Variable dist : vector -> vector -> Z.

(** Fresh ids: every insertion of [add_texts] adds a new key. *)
Lemma add_texts_size (chunks : list Document) (coll : gmap nat Entry) (next : nat) :
  (forall i, next <= i -> coll !! i = None) ->
  size (add_texts embed coll next chunks).1 = size coll + length chunks.
Proof.
  revert coll next. induction chunks as [|c rest IH]; intros coll next Hfresh; simpl.
  - lia.
  - rewrite IH.
    + rewrite map_size_insert_None by (apply Hfresh; lia). lia.
    + intros i Hi. rewrite lookup_insert_ne by lia. apply Hfresh. lia.
Qed.

(** After [delete_collection], or with no directory, the collection that
    [from_documents] opens is empty. *)
Lemma rebuild_opens_empty (st : StoreState) :
  open_collection (disk (if db_exists (disk st) then delete_collection st else st)) = ∅.
Proof. destruct st as [[|coll] next]; reflexivity. Qed.

(** The embedding cell raises exactly on an empty list of chunks. *)
Lemma rebuild_cases (st : StoreState) (chunks : list Document) :
  rebuild embed st chunks =
    match chunks with
    | [] => Err (ValueError empty_upsert_msg)
    | _ :: _ => Ok (store_chunks embed
                      (if db_exists (disk st) then delete_collection st else st) chunks)
    end.
Proof. unfold rebuild, from_documents. destruct chunks; reflexivity. Qed.

Lemma rebuild_ok (st : StoreState) (chunks : list Document) :
  chunks <> [] -> exists st1, rebuild embed st chunks = Ok st1.
Proof.
  intros Hne. rewrite rebuild_cases. destruct chunks as [|c cs]; [congruence|eauto].
Qed.

Lemma rebuild_count (st st1 : StoreState) (chunks : list Document) :
  rebuild embed st chunks = Ok st1 -> count st1 = length chunks.
Proof.
  rewrite rebuild_cases. intros H.
  destruct chunks as [|c cs]; [discriminate|]. injection H as <-.
  set (st0 := if db_exists (disk st) then delete_collection st else st).
  pose proof (rebuild_opens_empty st) as He. fold st0 in He.
  pose proof (add_texts_size (c :: cs) (open_collection (disk st0)) (next_uuid st0)) as Hs.
  unfold store_chunks, count. rewrite He in Hs |- *.
  destruct (add_texts embed ∅ _ (c :: cs)) as [coll next] eqn:Ha.
  simpl in *. rewrite Hs by (intros; apply lookup_empty). rewrite map_size_empty. lia.
Qed.

Lemma insert_by_length (key : Entry -> Z) (e : Entry) (l : list Entry) :
  length (insert_by key e l) = S (length l).
Proof.
  induction l as [|x r IH]; simpl; [done|].
  destruct (key e <=? key x)%Z; simpl; [done|]. rewrite IH. done.
Qed.

Lemma sort_by_length (key : Entry -> Z) (l : list Entry) :
  length (sort_by key l) = length l.
Proof.
  induction l as [|x r IH]; simpl; [done|]. rewrite insert_by_length, IH. done.
Qed.

Lemma insert_by_sorted (key : Entry -> Z) (e : Entry) (l : list Entry) :
  Sorted (fun a b => (key a <= key b)%Z) l ->
  Sorted (fun a b => (key a <= key b)%Z) (insert_by key e l).
Proof.
  induction l as [|x r IH]; intros Hs; simpl.
  - constructor; constructor.
  - destruct (key e <=? key x)%Z eqn:Hex.
    + apply Z.leb_le in Hex. constructor; [exact Hs|]. constructor. exact Hex.
    + apply Z.leb_gt in Hex. apply Sorted_inv in Hs as [Hr Hhd].
      constructor; [apply IH; exact Hr|].
      destruct r as [|y r']; simpl.
      * constructor. lia.
      * destruct (key e <=? key y)%Z; constructor; [lia|].
        inversion Hhd; subst. assumption.
Qed.

Lemma sort_by_sorted (key : Entry -> Z) (l : list Entry) :
  Sorted (fun a b => (key a <= key b)%Z) (sort_by key l).
Proof.
  induction l as [|x r IH]; simpl; [constructor|]. apply insert_by_sorted, IH.
Qed.

Lemma take_sorted {A} (R : A -> A -> Prop) (n : nat) (l : list A) :
  Sorted R l -> Sorted R (take n l).
Proof.
  rewrite !Sorted_LocallySorted_iff.
  revert l. induction n as [|n IH]; intros l Hl; simpl; [constructor|].
  destruct l as [|a [|b l]]; simpl; [constructor|destruct n; constructor|].
  inversion Hl; subst. destruct n as [|n]; simpl; [constructor|].
  constructor; [|assumption].
  specialize (IH (b :: l) H1). simpl in IH. exact IH.
Qed.

Lemma query_spec (coll : gmap nat Entry) (v : vector) (k : nat) :
  length (query dist coll v k) = min k (size coll) /\
  Sorted (fun a b => (dist v (entry_vec a) <= dist v (entry_vec b))%Z)
    (query dist coll v k).
Proof.
  unfold query. split.
  - rewrite length_take, sort_by_length, length_map, length_map_to_list.
    destruct (size coll <? k) eqn:Hk; [apply Nat.ltb_lt in Hk|apply Nat.ltb_ge in Hk]; lia.
  - apply take_sorted, (sort_by_sorted (fun e => dist v (entry_vec e))).
Qed.
End Facts.

End StoreFacts.

Module ChatFacts.
Import Loader Chat.

Section Facts.
Variable condense_llm : list Message -> string -> result string.
Variable retriever : string -> result (list Document).
Variable answer_llm : list Document -> string -> result string.

(** A turn either succeeds and saves exactly its question and answer,
    or raises and leaves the memory as it was. *)
Lemma chain_invoke_cases (q : string) (m : Memory) :
  (exists a, chain_invoke condense_llm retriever answer_llm q m =
             (Ok a, mkMemory (messages m ++ [HumanMessage q; AIMessage a]))) \/
  (exists e, chain_invoke condense_llm retriever answer_llm q m = (Err e, m)).
Proof.
  unfold chain_invoke, bindM, load_history, lift, save_context, ret.
  destruct (standalone_question condense_llm (messages m) q) as [nq|e]; [|right; eauto].
  destruct (retriever nq) as [docs|e]; [|right; eauto].
  destruct (answer_llm docs nq) as [a|e]; [left; eauto|right; eauto].
Qed.

Lemma chat_cases (q : string) (ui : list (string * string)) (m : Memory) :
  (exists a, chat condense_llm retriever answer_llm q ui m =
             (Ok a, mkMemory (messages m ++ [HumanMessage q; AIMessage a]))) \/
  (exists e, chat condense_llm retriever answer_llm q ui m = (Err e, m)).
Proof.
  unfold chat, bindM, ret. cbv beta.
  destruct (chain_invoke_cases q m) as [[a Ha]|[e He]];
    [left; exists a; rewrite Ha|right; exists e; rewrite He]; reflexivity.
Qed.

Lemma session_ok (qs : list string) (ui : list (string * string)) (m m' : Memory)
    (answers : list string) :
  session condense_llm retriever answer_llm qs ui m = (map Ok answers, m') ->
  length answers = length qs /\
  messages m' = messages m ++ turn_messages (zip qs answers).
Proof.
  revert ui m answers. induction qs as [|q qs IH]; intros ui m answers H; simpl in H.
  - injection H as Ha <-. destruct answers; [|discriminate]. simpl. rewrite app_nil_r. done.
  - destruct (chat_cases q ui m) as [[a Ha]|[e He]]; rewrite ?Ha, ?He in H.
    + destruct (session _ _ _ qs _ _) as [rs m''] eqn:Hs.
      destruct answers as [|a' answers]; [discriminate|].
      simpl in H. injection H as <- Hrs <-. subst rs.
      destruct (IH _ _ _ Hs) as [Hlen Hm]. simpl.
      split; [lia|]. rewrite Hm. simpl. rewrite <- app_assoc. done.
    + destruct (session _ _ _ qs _ _) as [rs m''].
      destruct answers; discriminate.
Qed.

Lemma turns_turn_messages (ts : list (string * string)) :
  turns (turn_messages ts) = ts.
Proof. induction ts as [|[q a] ts IH]; simpl; [done|]. rewrite IH. done. Qed.
End Facts.

End ChatFacts.

Module TextFacts.
Import Splitter SplitterFacts.

Lemma lstrip_app (a b : text) :
  lstrip (a ++ b) = if forallb is_space a then lstrip b else lstrip a ++ b.
Proof.
  induction a as [|c a IH]; [done|]. simpl.
  destruct (is_space c); simpl; [exact IH|done].
Qed.

Lemma lstrip_blank (t : text) : lstrip t = [] <-> forallb is_space t = true.
Proof.
  induction t as [|c t IH]; simpl; [done|].
  destruct (is_space c); simpl; [exact IH|split; discriminate].
Qed.

Lemma lstrip_head (t : text) :
  match lstrip t with [] => True | c :: _ => is_space c = false end.
Proof.
  induction t as [|c t IH]; simpl; [done|].
  destruct (is_space c) eqn:Hc; [exact IH|exact Hc].
Qed.

Lemma lstrip_prefix (t : text) : exists s, t = s ++ lstrip t /\ forallb is_space s = true.
Proof.
  induction t as [|c t IH]; simpl; [exists []; done|].
  destruct (is_space c) eqn:Hc.
  - destruct IH as (s & Hs & Hb). exists (c :: s). simpl. rewrite Hc, <- Hs. done.
  - exists []. done.
Qed.

Lemma lstrip_nonspace (t : text) :
  match t with [] => True | c :: _ => is_space c = false end -> lstrip t = t.
Proof. destruct t as [|c t]; simpl; [done|]. intros ->. done. Qed.

Lemma lstrip_idem (t : text) : lstrip (lstrip t) = lstrip t.
Proof. apply lstrip_nonspace, lstrip_head. Qed.

Lemma blank_rev (t : text) : forallb is_space (rev t) = forallb is_space t.
Proof.
  induction t as [|c t IH]; simpl; [done|].
  rewrite forallb_app, IH. simpl. rewrite andb_true_r, andb_comm. done.
Qed.

Lemma blank_lstrip (t : text) : forallb is_space (lstrip t) = true -> lstrip t = [].
Proof.
  pose proof (lstrip_head t). destruct (lstrip t) as [|c r]; [done|].
  simpl. rewrite H. discriminate.
Qed.

(** [str.strip()] gives "" exactly on blank text. *)
Lemma strip_blank (t : text) : strip t = [] <-> forallb is_space t = true.
Proof.
  unfold strip. rewrite <- (lstrip_blank t).
  split.
  - intros H. apply (f_equal (@rev ascii)) in H. rewrite rev_involutive in H.
    simpl in H. apply lstrip_blank in H. rewrite blank_rev in H.
    apply blank_lstrip. exact H.
  - intros ->. done.
Qed.

Lemma strip_idem (t : text) : strip (strip t) = strip t.
Proof.
  unfold strip at 2. set (z := lstrip t). set (w := lstrip (rev z)).
  assert (Hz : lstrip z = z) by apply lstrip_idem.
  destruct (lstrip_prefix (rev z)) as (s & Hs & Hb). fold w in Hs.
  assert (Hw : lstrip (rev w) = rev w).
  { assert (Hz' : z = rev w ++ rev s).
    { rewrite <- (rev_involutive z), Hs, rev_app_distr. done. }
    rewrite Hz' in Hz. rewrite lstrip_app in Hz.
    destruct (forallb is_space (rev w)) eqn:Hrw.
    - assert (Hn : lstrip (rev s) = []) by (apply lstrip_blank; rewrite blank_rev; exact Hb).
      rewrite Hn in Hz. symmetry in Hz. apply app_eq_nil in Hz as [-> _]. done.
    - apply app_inv_tail in Hz. exact Hz. }
  unfold strip. rewrite Hw, rev_involutive. unfold w. rewrite lstrip_idem. done.
Qed.

Lemma infix_rev {A} (l1 l2 : list A) : infix l1 l2 -> infix (rev l1) (rev l2).
Proof.
  intros (k1 & k2 & ->). exists (rev k2), (rev k1).
  rewrite !rev_app_distr, app_assoc. done.
Qed.

Lemma lstrip_infix (p z : text) :
  forallb is_space p = false -> infix p z -> infix (lstrip p) (lstrip z).
Proof.
  intros Hp (k1 & k2 & ->). rewrite lstrip_app.
  destruct (forallb is_space k1).
  - rewrite lstrip_app, Hp. exists [], k2. done.
  - destruct (lstrip_prefix p) as (s & Hs & _).
    exists (lstrip k1 ++ s), k2. rewrite Hs at 1. rewrite !app_assoc. done.
Qed.

(** A non-blank infix keeps its stripped text inside the stripped text. *)
Lemma strip_infix (p z : text) :
  forallb is_space p = false -> infix p z -> infix (strip p) (strip z).
Proof.
  intros Hp Hi. unfold strip. apply infix_rev, lstrip_infix; [|apply infix_rev, lstrip_infix; assumption].
  rewrite blank_rev. destruct (forallb is_space (lstrip p)) eqn:Hl; [|done].
  apply blank_lstrip, lstrip_blank in Hl. congruence.
Qed.

Lemma join_infix (sep p : text) (l : list text) : p ∈ l -> infix p (join sep l).
Proof.
  induction l as [|x l IH]; intros Hp; [apply elem_of_nil in Hp; contradiction|].
  apply elem_of_cons in Hp as [->|Hp].
  - destruct l as [|y l]; [exists [], []; simpl; rewrite app_nil_r; done|].
    exists [], (sep ++ join sep (y :: l)). done.
  - destruct l as [|y l]; [apply elem_of_nil in Hp; contradiction|].
    destruct (IH Hp) as (k1 & k2 & Hk).
    exists (x ++ sep ++ k1), k2. change (join sep (x :: y :: l)) with (x ++ sep ++ join sep (y :: l)).
    rewrite Hk, <- !app_assoc. done.
Qed.

Lemma elem_of_join (sep : text) (c : ascii) (l : list text) :
  c ∈ join sep l -> c ∈ sep \/ exists p, p ∈ l /\ c ∈ p.
Proof.
  induction l as [|x l IH]; simpl; [intros H; apply elem_of_nil in H; contradiction|].
  destruct l as [|y l].
  - intros Hc. right. exists x. split; [constructor|done].
  - intros Hc. apply elem_of_app in Hc as [Hc|Hc]; [right; exists x; split; [constructor|done]|].
    apply elem_of_app in Hc as [Hc|Hc]; [left; done|].
    destruct (IH Hc) as [H|(p & Hp & Hcp)]; [left; done|].
    right. exists p. split; [constructor; done|done].
Qed.

Lemma elem_of_infix {A} (x : A) (l1 l2 : list A) : x ∈ l1 -> infix l1 l2 -> x ∈ l2.
Proof. intros Hx (k1 & k2 & ->). apply elem_of_app. right. apply elem_of_app. left. done. Qed.

Lemma split_pieces_chars (t p : text) (c : ascii) :
  p ∈ split_text_with_regex t -> c ∈ p -> c ∈ t.
Proof.
  intros Hp Hc. unfold split_text_with_regex in Hp.
  apply list_elem_of_In, filter_In in Hp as [Hp _]. apply list_elem_of_In in Hp.
  pose proof (join_re_split_nn (length t) t [] (le_n _)) as Hj. simpl in Hj.
  rewrite <- Hj. apply (elem_of_infix c p); [done|]. apply join_infix. done.
Qed.

Lemma text_chars_in_pieces (t : text) (c : ascii) :
  c ∈ t -> c = newline \/ exists p, p ∈ split_text_with_regex t /\ c ∈ p.
Proof.
  intros Hc. pose proof (join_re_split_nn (length t) t [] (le_n _)) as Hj. simpl in Hj.
  rewrite <- Hj in Hc. apply elem_of_join in Hc as [Hc|(p & Hp & Hcp)].
  - left. unfold separator in Hc. apply elem_of_cons in Hc as [->|Hc]; [done|].
    apply list_elem_of_singleton in Hc. done.
  - right. exists p. split; [|done]. unfold split_text_with_regex.
    apply list_elem_of_In, filter_In. split; [apply list_elem_of_In; done|].
    apply negb_true_iff. apply bool_decide_false. intros ->. apply elem_of_nil in Hcp. done.
Qed.

End TextFacts.

Module CoverFacts.
Import Splitter SplitterFacts TextFacts.

Lemma windows_cover (ov : nat) (sep : text) (S : list text) (ws : list (nat * nat)) (i : nat) :
  LocallySorted (carry_over ov sep S) ws -> ws <> [] ->
  (hd (0, 0) ws).1 <= i -> i < (List.last ws (0, 0)).2 ->
  exists w, w ∈ ws /\ w.1 <= i < w.2.
Proof.
  induction ws as [|w1 ws IH]; intros Hs Hne Hlo Hhi; [congruence|].
  destruct ws as [|w2 rest].
  - exists w1. split; [constructor|]. simpl in *. lia.
  - inversion Hs as [| |? ? ? Hs' Hr]; subst.
    destruct (decide (i < w1.2)) as [Hlt|Hge].
    + exists w1. split; [constructor|]. simpl in Hlo. lia.
    + destruct Hr as (_ & H2 & _). destruct (IH Hs' ltac:(congruence)) as (w & Hw & Hi).
      * simpl. lia.
      * exact Hhi.
      * exists w. split; [constructor; done|done].
Qed.

Lemma window_lookup (S : list text) (w : nat * nat) (i : nat) (p : text) :
  w.1 <= i < w.2 -> S !! i = Some p -> p ∈ window S w.
Proof.
  intros Hi Hp. unfold window. apply list_elem_of_lookup. exists (i - w.1).
  rewrite lookup_take_lt by lia. rewrite lookup_drop.
  replace (w.1 + (i - w.1)) with i by lia. exact Hp.
Qed.

(** Every piece lies in some group of [_merge_splits]. *)
Lemma merge_groups_cover (size ov : nat) (sep : text) (S : list text) (p : text) :
  Forall (fun x => x <> []) S -> p ∈ S ->
  exists g, g ∈ merge_groups size ov sep S /\ p ∈ g.
Proof.
  intros Hne Hp.
  destruct (merge_groups_windows size ov sep S Hne) as (ws & Hws & Hch & Hhd & Hlast & _).
  apply list_elem_of_lookup in Hp as [i Hi].
  assert (Hlt : i < length S) by (apply lookup_lt_Some in Hi; exact Hi).
  assert (Hwne : ws <> []) by (intros ->; simpl in Hlast; lia).
  destruct (windows_cover ov sep S ws i Hch Hwne) as (w & Hw & Hiw); [lia|lia|].
  exists (window S w). split.
  - rewrite Hws. apply list_elem_of_In, in_map_iff. exists w. split; [done|].
    apply list_elem_of_In. exact Hw.
  - apply (window_lookup S w i p Hiw Hi).
Qed.

Lemma merge_groups_pieces (size ov : nat) (sep : text) (S : list text) (g : list text) (p : text) :
  Forall (fun x => x <> []) S ->
  g ∈ merge_groups size ov sep S -> p ∈ g -> p ∈ S.
Proof.
  intros Hne Hg Hp.
  destruct (merge_groups_windows size ov sep S Hne) as (ws & Hws & _).
  rewrite Hws in Hg. apply list_elem_of_In, in_map_iff in Hg as (w & <- & _).
  apply (window_elem S w). exact Hp.
Qed.

Lemma omap_all_none {A B} (f : A -> option B) (l : list A) :
  (forall x, x ∈ l -> f x = None) -> omap f l = [].
Proof.
  induction l as [|x l IH]; intros H; [done|]. simpl.
  rewrite (H x ltac:(constructor)). apply IH. intros y Hy. apply H. constructor. done.
Qed.

Lemma join_docs_some (sep : text) (g : list text) (c : text) :
  join_docs sep g = Some c -> c = strip (join sep g) /\ c <> [].
Proof.
  unfold join_docs. destruct (strip (join sep g)) as [|x r]; [discriminate|].
  intros H. injection H as <-. split; [done|congruence].
Qed.

Lemma blank_forall (t : text) : forallb is_space t = true <-> forall c, c ∈ t -> is_space c = true.
Proof.
  rewrite forallb_forall. split; intros H c Hc; apply H; apply list_elem_of_In; done.
Qed.

Lemma not_blank_witness (t : text) :
  forallb is_space t = false -> exists c, c ∈ t /\ is_space c = false.
Proof.
  induction t as [|c t IH]; simpl; [discriminate|].
  destruct (is_space c) eqn:Hc; simpl.
  - intros H. destruct (IH H) as (c' & Hc' & Hs). exists c'. split; [constructor; done|done].
  - intros _. exists c. split; [constructor|done].
Qed.

(** A non-blank piece of the text appears, stripped, inside some chunk. *)
Lemma split_text_cover (t p : text) :
  p ∈ split_text_with_regex t -> strip p <> [] ->
  exists c, c ∈ split_text t /\ infix (strip p) c.
Proof.
  intros Hp Hnb.
  assert (Hpb : forallb is_space p = false).
  { destruct (forallb is_space p) eqn:H; [|done]. apply strip_blank in H. congruence. }
  destruct (merge_groups_cover chunk_size chunk_overlap separator _ p (split_pieces_nonempty t) Hp)
    as (g & Hg & Hpg).
  assert (Hi : infix (strip p) (strip (join separator g))).
  { apply strip_infix; [exact Hpb|]. apply join_infix. exact Hpg. }
  exists (strip (join separator g)). split; [|exact Hi].
  unfold split_text, merge_splits. apply list_elem_of_omap. exists g. split; [exact Hg|].
  unfold join_docs. destruct (strip (join separator g)) eqn:Hs; [|done].
  destruct Hi as (k1 & k2 & Hk). symmetry in Hk.
  apply app_eq_nil in Hk as [_ Hk]. apply app_eq_nil in Hk as [Hk _]. congruence.
Qed.

Lemma split_text_blank (t : text) : split_text t = [] <-> forallb is_space t = true.
Proof.
  split.
  - intros Hnil. destruct (forallb is_space t) eqn:Hb; [done|exfalso].
    assert (Hex := not_blank_witness t Hb).
    destruct Hex as (c & Hc & Hsc).
    destruct (text_chars_in_pieces t c Hc) as [->|(p & Hp & Hcp)]; [discriminate|].
    assert (Hnb : strip p <> []).
    { intros Hs. apply strip_blank in Hs. rewrite blank_forall in Hs. rewrite (Hs c Hcp) in Hsc. discriminate. }
    destruct (split_text_cover t p Hp Hnb) as (c' & Hc' & _).
    rewrite Hnil in Hc'. apply elem_of_nil in Hc'. done.
  - intros Hb. unfold split_text, merge_splits. apply omap_all_none.
    intros g Hg. unfold join_docs.
    assert (Hj : strip (join separator g) = []).
    { apply strip_blank, blank_forall. intros c Hc.
      apply elem_of_join in Hc as [Hc|(p & Hp & Hcp)].
      - unfold separator in Hc. apply elem_of_cons in Hc as [->|Hc]; [done|].
        apply list_elem_of_singleton in Hc. subst. done.
      - apply (blank_forall t); [exact Hb|].
        apply (split_pieces_chars t p c); [|exact Hcp].
        exact (merge_groups_pieces _ _ _ _ g p (split_pieces_nonempty t) Hg Hp). }
    rewrite Hj. done.
Qed.

End CoverFacts.

Module PieceFacts.
Import Splitter SplitterFacts TextFacts.

Lemma infix_pair_cons {A} (a b c : A) (l : list A) :
  infix [a; b] (c :: l) -> (c = a /\ exists r, l = b :: r) \/ infix [a; b] l.
Proof.
  intros (k1 & k2 & Hk). destruct k1 as [|x k1]; simpl in Hk.
  - injection Hk as -> ->. left. split; [done|]. eexists; done.
  - injection Hk as -> ->. right. exists k1, k2. done.
Qed.

Lemma infix_nil_pair {A} (a b : A) : ~ infix [a; b] [].
Proof. intros (k1 & k2 & Hk). destruct k1; discriminate. Qed.

(** [cur] (the current piece, reversed) never holds "\n\n", and a
    newline at its head is not followed by a newline in the rest. *)
Lemma push_ok (c1 : ascii) (cur t : text) :
  ~ infix separator cur /\
  (forall c0 c1' r0 r1, cur = c0 :: r0 -> c1 :: t = c1' :: r1 -> is_nl c0 = true -> is_nl c1' = false) ->
  ~ infix separator (c1 :: cur).
Proof.
  intros [Hcur Hhd] Hi. apply infix_pair_cons in Hi as [[-> [r ->]]|Hi]; [|done].
  specialize (Hhd newline newline r t eq_refl eq_refl). unfold is_nl in Hhd.
  rewrite Ascii.eqb_refl in Hhd. specialize (Hhd eq_refl). discriminate.
Qed.

Lemma separator_rev : rev separator = separator.
Proof. reflexivity. Qed.

Lemma no_sep_rev (cur : text) : ~ infix separator cur -> ~ infix separator (rev cur).
Proof.
  intros H Hi. apply H. apply infix_rev in Hi. rewrite rev_involutive, separator_rev in Hi. done.
Qed.

Lemma re_split_nn_pieces (n : nat) (t cur : text) :
  length t <= n ->
  ~ infix separator cur /\
  (forall c0 c1 r0 r1, cur = c0 :: r0 -> t = c1 :: r1 -> is_nl c0 = true -> is_nl c1 = false) ->
  forall p, p ∈ re_split_nn cur t -> ~ infix separator p.
Proof.
  revert t cur. induction n as [|n IH]; intros t cur Hn Hok p Hp.
  - destruct t; [|simpl in Hn; lia]. simpl in Hp. apply list_elem_of_singleton in Hp as ->.
    apply no_sep_rev, Hok.
  - destruct t as [|c1 [|c2 t2]].
    + simpl in Hp. apply list_elem_of_singleton in Hp as ->. apply no_sep_rev, Hok.
    + simpl in Hp. apply list_elem_of_singleton in Hp as ->.
      change (rev cur ++ [c1]) with (rev (c1 :: cur)). apply no_sep_rev.
      apply (push_ok c1 cur []). exact Hok.
    + rewrite re_split_nn_step in Hp.
      destruct (is_nl c1 && is_nl c2) eqn:Hnl.
      * apply elem_of_cons in Hp as [->|Hp]; [apply no_sep_rev, Hok|].
        apply (IH t2 []); [simpl in Hn; lia| |exact Hp].
        split; [apply infix_nil_pair|]. intros c0 c1' r0 r1 H. discriminate.
      * apply (IH (c2 :: t2) (c1 :: cur)); [simpl in *; lia| |exact Hp].
        split; [apply (push_ok c1 cur (c2 :: t2)); exact Hok|].
        intros c0 c1' r0 r1 H0 H1 Hc0. injection H0 as <- _. injection H1 as <- _.
        rewrite Hc0 in Hnl. simpl in Hnl. exact Hnl.
Qed.

(** Every chunk is non-empty and has no surrounding whitespace. *)
Lemma split_text_chunk_shape (t c : text) :
  c ∈ split_text t -> c <> [] /\ strip c = c.
Proof.
  intros Hc. unfold split_text, merge_splits in Hc.
  apply list_elem_of_omap in Hc as (g & _ & Hj).
  apply CoverFacts.join_docs_some in Hj as [-> Hne]. split; [exact Hne|apply strip_idem].
Qed.

End PieceFacts.

Module IngestFacts.
Import Splitter Loader LoaderFacts.

Lemma load_all_ok_iff (es : list FileEntry) :
  (exists docs, load_all es = Ok docs) <-> forall e, e ∈ es -> contents e <> None.
Proof.
  induction es as [|e es IH]; simpl.
  - split; [intros _ e He; apply elem_of_nil in He; done|intros _; eexists; done].
  - unfold mbind, result_bind, mret, result_ret. unfold text_load.
    destruct (contents e) as [t|] eqn:Hc.
    + destruct (load_all es) as [ds|err] eqn:Hl.
      * split; [|intros _; eexists; done].
        intros _ e' He'. apply elem_of_cons in He' as [->|He']; [congruence|].
        apply IH; [eexists; done|done].
      * split; [intros [? H]; discriminate|].
        intros H. destruct (proj2 IH) as [? Hx]; [|discriminate].
        intros e' He'. apply H. constructor. done.
    + split; [intros [? H]; discriminate|].
      intros H. exfalso. apply (H e); [constructor|done].
Qed.

Lemma load_all_length (es : list FileEntry) (docs : list Document) :
  load_all es = Ok docs -> length docs = length es.
Proof.
  revert docs. induction es as [|e es IH]; intros docs H; simpl in H.
  - unfold mret, result_ret in H. injection H as <-. done.
  - destruct_bind H. destruct_bind H. injection H as <-. simpl. rewrite (IH _ eq_refl). done.
Qed.

Lemma directory_load_ok_iff (files : list FileEntry) (f : string) :
  (exists docs, directory_load files f = Ok docs) <->
  is_dir files f = true /\ forall e, e ∈ files -> selected f e = true -> contents e <> None.
Proof.
  unfold directory_load. destruct (is_dir files f).
  - rewrite load_all_ok_iff. split.
    + intros H. split; [done|]. intros e He Hs. apply H.
      apply list_elem_of_In, filter_In. split; [apply list_elem_of_In; done|done].
    + intros [_ H] e He. apply list_elem_of_In, filter_In in He as [He Hs].
      apply H; [apply list_elem_of_In; done|done].
  - split; [intros [? H]; discriminate|intros [H _]; discriminate].
Qed.

Lemma load_folders_ok_iff (files : list FileEntry) (folders : list string) :
  (exists docs, load_folders files folders = Ok docs) <->
  forall f, f ∈ folders -> exists docs, directory_load files f = Ok docs.
Proof.
  induction folders as [|f folders IH]; simpl.
  - split; [intros _ f Hf; apply elem_of_nil in Hf; done|intros _; eexists; done].
  - unfold mbind, result_bind, mret, result_ret.
    destruct (directory_load files f) as [ds|err] eqn:Hd.
    + destruct (load_folders files folders) as [ds'|err] eqn:Hl.
      * split; [|intros _; eexists; done].
        intros _ f' Hf'. apply elem_of_cons in Hf' as [->|Hf']; [eexists; done|].
        apply IH; [eexists; done|done].
      * split; [intros [? H]; discriminate|].
        intros H. destruct (proj2 IH) as [? Hx]; [|discriminate].
        intros f' Hf'. apply H. constructor. done.
    + split; [intros [? H]; discriminate|].
      intros H. destruct (H f ltac:(constructor)) as [? Hx]. congruence.
Qed.

Lemma directory_load_length (files : list FileEntry) (f : string) (docs : list Document) :
  directory_load files f = Ok docs -> length docs = length (List.filter (selected f) files).
Proof.
  unfold directory_load. destruct (is_dir files f); [|discriminate]. apply load_all_length.
Qed.

Lemma load_folders_length (files : list FileEntry) (folders : list string) (docs : list Document) :
  load_folders files folders = Ok docs ->
  length docs = list_sum (map (fun f => length (List.filter (selected f) files)) folders).
Proof.
  revert docs. induction folders as [|f folders IH]; intros docs H; simpl in H.
  - unfold mret, result_ret in H. injection H as <-. done.
  - destruct_bind H. destruct_bind H. injection H as <-.
    rewrite length_app, length_map, (directory_load_length _ _ _ Hr), (IH _ eq_refl). done.
Qed.

Lemma filter_disjoint_length {A} (p q : A -> bool) (l : list A) :
  (forall x, x ∈ l -> p x = true -> q x = true -> False) ->
  length (List.filter p l) + length (List.filter q l) = length (List.filter (fun x => p x || q x) l).
Proof.
  induction l as [|x l IH]; intros H; [done|]. simpl.
  assert (IH' := IH (fun y Hy => H y ltac:(constructor; done))).
  destruct (p x) eqn:Hp, (q x) eqn:Hq; simpl.
  - exfalso. exact (H x ltac:(constructor) Hp Hq).
  - lia.
  - lia.
  - lia.
Qed.

Lemma selected_head (f : string) (e : FileEntry) :
  selected f e = true -> exists rest, path e = f :: rest.
Proof. intros H. destruct (selected_path f e H) as (rest & Hp & _). eauto. Qed.

Lemma sum_selected (files : list FileEntry) (folders : list string) :
  NoDup folders ->
  list_sum (map (fun f => length (List.filter (selected f) files)) folders) =
  length (List.filter (fun e => existsb (fun f => selected f e) folders) files).
Proof.
  induction folders as [|f folders IH]; intros Hnd; simpl.
  - induction files as [|x files IHf]; simpl; auto.
  - inversion Hnd as [|? ? Hnin Hnd']; subst.
    rewrite IH by exact Hnd'.
    apply filter_disjoint_length.
    intros e _ Hf Hex. apply existsb_exists in Hex as (g & Hg & Hsg).
    destruct (selected_head f e Hf) as (r1 & H1). destruct (selected_head g e Hsg) as (r2 & H2).
    rewrite H1 in H2. injection H2 as <- _. apply Hnin. apply list_elem_of_In. exact Hg.
Qed.

Lemma root_entries_in (files : list FileEntry) (n : string) :
  In n (root_entries (Some files)) <->
  is_hidden n = false /\ exists e rest, In e files /\ path e = n :: rest.
Proof.
  unfold root_entries. rewrite nodup_In, filter_In, in_flat_map. split.
  - intros [(e & He & Hn) Hh]. apply negb_true_iff in Hh. split; [done|].
    destruct (path e) as [|m rest] eqn:Hp; [done|]. destruct Hn as [<-|[]]. eauto.
  - intros [Hh (e & rest & He & Hp)]. split; [|apply negb_true_iff; done].
    exists e. rewrite Hp. split; [done|left; done].
Qed.

Lemma existsb_selected_in_scope (files : list FileEntry) (e : FileEntry) :
  In e files ->
  existsb (fun f => selected f e) (root_entries (Some files)) = in_scope e.
Proof.
  intros He. apply Bool.eq_true_iff_eq. rewrite existsb_exists.
  unfold selected, in_scope. destruct (path e) as [|n [|x rest]] eqn:Hp.
  - split; [intros (f & _ & H); done|done].
  - split; [intros (f & _ & H); done|done].
  - split.
    + intros (f & Hf & Hs). apply andb_true_iff in Hs as [Hs Hmd]. apply andb_true_iff in Hs as [Hn Hvis].
      apply String.eqb_eq in Hn. subst f. apply root_entries_in in Hf as [Hh _].
      rewrite Hh, Hvis, Hmd. done.
    + intros Hs. apply andb_true_iff in Hs as [Hs Hmd]. apply andb_true_iff in Hs as [Hh Hvis].
      exists n. split.
      * apply root_entries_in. split; [apply negb_true_iff; done|]. eauto.
      * rewrite String.eqb_refl, Hvis, Hmd. done.
Qed.

(** The documents: one per visible markdown file inside a visible
    first-level folder. *)
Lemma load_documents_count (files : list FileEntry) (docs : list Document) :
  load_documents (Some files) = Ok docs ->
  length docs = length (List.filter in_scope files).
Proof.
  unfold load_documents. intros H. rewrite (load_folders_length _ _ _ H).
  rewrite sum_selected by (apply NoDup_ListNoDup, NoDup_nodup).
  f_equal. apply filter_ext_in. intros e He. apply existsb_selected_in_scope. exact He.
Qed.

(** Ingestion succeeds exactly when every visible root entry is a folder
    and every file picked under it can be decoded. *)
Lemma ingest_ok_iff (files : list FileEntry) :
  (exists chunks, ingest (Some files) = Ok chunks) <->
  forall f, f ∈ root_entries (Some files) ->
    is_dir files f = true /\ forall e, e ∈ files -> selected f e = true -> contents e <> None.
Proof.
  transitivity (exists docs, load_documents (Some files) = Ok docs).
  - unfold ingest, mbind, result_bind, mret, result_ret.
    destruct (load_documents (Some files)) as [docs|err].
    + split; intros _; eexists; done.
    + split; intros [? H]; discriminate.
  - unfold load_documents. rewrite load_folders_ok_iff.
    split; intros H f Hf; apply directory_load_ok_iff, H, Hf.
Qed.

Lemma load_folders_ext (files files' : list FileEntry) (folders : list string) :
  (forall f, f ∈ folders -> directory_load files' f = directory_load files f) ->
  load_folders files' folders = load_folders files folders.
Proof.
  induction folders as [|f folders IH]; intros H; [done|]. simpl.
  rewrite (H f ltac:(constructor)), IH; [done|]. intros g Hg. apply H. constructor. done.
Qed.

(** A file that no [DirectoryLoader] picks and that adds no folder
    leaves ingestion unchanged. *)
Lemma ignored_file (e : FileEntry) (files : list FileEntry) (n : string) (rest : list string) :
  path e = n :: rest ->
  is_hidden n = true \/
  (is_dir files n = true /\
   (is_md (List.last rest ""%string) = false \/ existsb is_hidden rest = true)) ->
  ingest (Some (e :: files)) = ingest (Some files).
Proof.
  intros Hp Hcase.
  assert (Hroot : root_entries (Some (e :: files)) = root_entries (Some files)).
  { unfold root_entries. cbn [flat_map]. rewrite Hp. cbn [app List.filter].
    destruct Hcase as [Hh|[Hd _]].
    - rewrite Hh. done.
    - destruct (is_hidden n) eqn:Hh; [done|]. cbn [negb nodup].
      destruct (in_dec string_dec n _) as [|Hnin]; [done|exfalso; apply Hnin].
      apply filter_In. split; [|rewrite Hh; done].
      apply existsb_exists in Hd as (e' & He' & Hd').
      apply in_flat_map. exists e'. split; [done|].
      destruct (path e') as [|m [|]]; try discriminate. apply String.eqb_eq in Hd' as ->. left. done. }
  assert (Hsel : forall f, f ∈ root_entries (Some files) -> selected f e = false).
  { intros f Hf. apply list_elem_of_In, root_entries_in in Hf as [Hfh _].
    unfold selected. rewrite Hp. destruct rest as [|x r]; [done|].
    destruct Hcase as [Hh|[_ [Hmd|Hhid]]].
    - destruct (String.eqb n f) eqn:Hnf; [|done]. apply String.eqb_eq in Hnf. congruence.
    - rewrite Hmd, andb_false_r. done.
    - assert (Hfa : forallb (fun c => negb (is_hidden c)) (x :: r) = false).
      { apply existsb_exists in Hhid as (c & Hc & Hch).
        destruct (forallb _ _) eqn:Hfa; [|done]. rewrite forallb_forall in Hfa.
        specialize (Hfa c Hc). rewrite Hch in Hfa. discriminate. }
      rewrite Hfa, andb_false_r. done. }
  assert (Hdir : forall f, f ∈ root_entries (Some files) -> is_dir (e :: files) f = is_dir files f).
  { intros f Hf. unfold is_dir. cbn [existsb]. rewrite Hp.
    apply list_elem_of_In, root_entries_in in Hf as [Hfh _].
    destruct rest as [|x r]; [done|].
    destruct (String.eqb n f) eqn:Hnf; [|done]. apply String.eqb_eq in Hnf. subst f.
    destruct Hcase as [Hh|[Hd _]]; [congruence|]. unfold is_dir in Hd. rewrite Hd. done. }
  unfold ingest, load_documents. rewrite Hroot.
  rewrite (load_folders_ext files (e :: files)); [done|].
  intros f Hf. unfold directory_load. rewrite (Hdir f Hf). cbn [List.filter]. rewrite (Hsel f Hf). done.
Qed.

End IngestFacts.

Module SourceFacts.
Import Splitter Loader LoaderFacts IngestFacts.

Lemma load_all_sources (es : list FileEntry) (docs : list Document) :
  load_all es = Ok docs ->
  map (fun d => metadata d !! "source"%string) docs = map (fun e => Some (path_string (path e))) es.
Proof.
  revert docs. induction es as [|e es IH]; intros docs H; simpl in H.
  - unfold mret, result_ret in H. injection H as <-. done.
  - destruct_bind H. destruct_bind H. injection H as <-. simpl.
    rewrite (IH _ eq_refl). unfold text_load in Hr.
    destruct (contents e); [|discriminate]. injection Hr as <-. simpl.
    rewrite lookup_insert_eq. done.
Qed.

Lemma filter_disjoint_perm {A} (p q : A -> bool) (l : list A) :
  (forall x, x ∈ l -> p x = true -> q x = true -> False) ->
  List.filter p l ++ List.filter q l ≡ₚ List.filter (fun x => p x || q x) l.
Proof.
  induction l as [|x l IH]; intros H; [done|]. simpl.
  assert (IH' := IH (fun y Hy => H y ltac:(constructor; done))).
  destruct (p x) eqn:Hp, (q x) eqn:Hq; simpl.
  - exfalso. exact (H x ltac:(constructor) Hp Hq).
  - constructor. exact IH'.
  - rewrite <- Permutation_middle. constructor. exact IH'.
  - exact IH'.
Qed.

Lemma load_folders_sources (files : list FileEntry) (folders : list string) (docs : list Document) :
  load_folders files folders = Ok docs ->
  map (fun d => metadata d !! "source"%string) docs =
    flat_map (fun f => map (fun e => Some (path_string (path e))) (List.filter (selected f) files)) folders.
Proof.
  revert docs. induction folders as [|f folders IH]; intros docs H; simpl in H.
  - unfold mret, result_ret in H. injection H as <-. done.
  - destruct_bind H. destruct_bind H. injection H as <-. simpl.
    rewrite map_app, (IH _ eq_refl). f_equal.
    unfold directory_load in Hr. destruct (is_dir files f); [|discriminate].
    rewrite <- (load_all_sources _ _ Hr), map_map. apply map_ext. intros d.
    unfold add_metadata. simpl. rewrite lookup_insert_ne by done. done.
Qed.

Lemma flat_map_selected_perm (files : list FileEntry) (folders : list string) :
  NoDup folders ->
  flat_map (fun f => map (fun e => Some (path_string (path e))) (List.filter (selected f) files)) folders ≡ₚ
    map (fun e => Some (path_string (path e)))
      (List.filter (fun e => existsb (fun f => selected f e) folders) files).
Proof.
  induction folders as [|f folders IH]; intros Hnd; simpl.
  - induction files as [|x files IHf]; simpl; auto.
  - inversion Hnd as [|? ? Hnin Hnd']; subst.
    rewrite IH by exact Hnd'. rewrite <- map_app. apply Permutation_map.
    apply filter_disjoint_perm.
    intros e _ Hf Hex. apply existsb_exists in Hex as (g & Hg & Hsg).
    destruct (selected_head f e Hf) as (r1 & H1). destruct (selected_head g e Hsg) as (r2 & H2).
    rewrite H1 in H2. injection H2 as <- _. apply Hnin. apply list_elem_of_In. exact Hg.
Qed.

Lemma load_documents_sources (files : list FileEntry) (docs : list Document) :
  load_documents (Some files) = Ok docs ->
  map (fun d => metadata d !! "source"%string) docs ≡ₚ
    map (fun e => Some (path_string (path e))) (List.filter in_scope files).
Proof.
  unfold load_documents. intros H. rewrite (load_folders_sources _ _ _ H).
  rewrite flat_map_selected_perm by (apply NoDup_ListNoDup, NoDup_nodup).
  rewrite (filter_ext_in _ in_scope files); [done|].
  intros e He. apply existsb_selected_in_scope. exact He.
Qed.

End SourceFacts.

Module VectorFacts.
Import Loader Store StoreFacts.

Section Facts.
Variable embed : text -> vector.
Variable dist : vector -> vector -> Z.

Lemma add_texts_values (chunks : list Document) (coll : gmap nat Entry) (next : nat) :
  (forall i, next <= i -> coll !! i = None) ->
  map snd (map_to_list (add_texts embed coll next chunks).1) ≡ₚ
    map snd (map_to_list coll) ++ map (fun c => mkEntry c (embed (page_content c))) chunks.
Proof.
  revert coll next. induction chunks as [|c rest IH]; intros coll next Hfresh; simpl.
  - rewrite app_nil_r. done.
  - rewrite IH.
    + rewrite map_to_list_insert by (apply Hfresh; lia). simpl.
      rewrite <- Permutation_middle. done.
    + intros i Hi. rewrite lookup_insert_ne by lia. apply Hfresh. lia.
Qed.

Lemma add_texts_fresh (chunks : list Document) (coll : gmap nat Entry) (next : nat) :
  (forall i, next <= i -> coll !! i = None) ->
  forall i, (add_texts embed coll next chunks).2 <= i -> (add_texts embed coll next chunks).1 !! i = None.
Proof.
  revert coll next. induction chunks as [|c rest IH]; intros coll next Hfresh; simpl; [exact Hfresh|].
  apply IH. intros i Hi. rewrite lookup_insert_ne by lia. apply Hfresh. lia.
Qed.

Lemma store_chunks_values (st : StoreState) (chunks : list Document) :
  (forall i, next_uuid st <= i -> open_collection (disk st) !! i = None) ->
  map snd (map_to_list (open_collection (disk (store_chunks embed st chunks)))) ≡ₚ
    map snd (map_to_list (open_collection (disk st))) ++
    map (fun c => mkEntry c (embed (page_content c))) chunks.
Proof.
  intros Hfresh. unfold store_chunks.
  pose proof (add_texts_values chunks _ _ Hfresh) as Hv.
  destruct (add_texts embed _ _ chunks) as [coll next]. exact Hv.
Qed.

Lemma rebuild_values (st st1 : StoreState) (chunks : list Document) :
  rebuild embed st chunks = Ok st1 ->
  map snd (map_to_list (open_collection (disk st1))) ≡ₚ
    map (fun c => mkEntry c (embed (page_content c))) chunks.
Proof.
  rewrite rebuild_cases. intros H.
  destruct chunks as [|c cs]; [discriminate|]. injection H as <-.
  rewrite store_chunks_values.
  - rewrite rebuild_opens_empty, map_to_list_empty. done.
  - intros i _. rewrite rebuild_opens_empty. apply lookup_empty.
Qed.

(** The inspection cell after a successful rebuild: the number of chunks
    and the embedding dimension. *)
Lemma inspect_after_rebuild (st st1 : StoreState) (chunks : list Document) (dim : nat) :
  rebuild embed st chunks = Ok st1 ->
  (forall t, length (embed t) = dim) ->
  inspect_vectors st1 = Some (length chunks, dim).
Proof.
  intros Hr Hdim. unfold inspect_vectors, get_embeddings.
  pose proof (rebuild_values st st1 chunks Hr) as Hv.
  pose proof (rebuild_count embed st st1 chunks Hr) as Hc.
  assert (Hne : chunks <> []) by (intros ->; rewrite rebuild_cases in Hr; discriminate).
  destruct (map_to_list (open_collection (disk st1))) as [|[i x] l] eqn:Hl.
  - simpl in Hv. apply Permutation_nil in Hv. destruct chunks; [done|discriminate].
  - simpl. rewrite Hc.
    assert (Hx : x ∈ map (fun c => mkEntry c (embed (page_content c))) chunks).
    { rewrite <- Hv. constructor. }
    apply list_elem_of_In, in_map_iff in Hx as (c & <- & Hin).
    destruct chunks as [|c0 cs]; [destruct Hin|]. simpl. rewrite Hdim. done.
Qed.
End Facts.

End VectorFacts.

Module ChainFacts.
Import Loader Chat ChatFacts.

Section Facts.
Variable condense_llm : list Message -> string -> result string.
Variable answer_llm : list Document -> string -> result string.

Lemma first_turn (condense_llm' : list Message -> string -> result string)
    (retriever : string -> result (list Document)) (q : string) (m : Memory) :
  messages m = [] ->
  chain_invoke condense_llm retriever answer_llm q m =
    chain_invoke condense_llm' retriever answer_llm q m /\
  chain_invoke condense_llm retriever answer_llm q m =
    match retriever q with
    | Err e => (Err e, m)
    | Ok docs =>
        match answer_llm docs q with
        | Err e => (Err e, m)
        | Ok a => (Ok a, mkMemory [HumanMessage q; AIMessage a])
        end
    end.
Proof.
  intros Hm. unfold chain_invoke, bindM, load_history, lift, save_context, ret.
  rewrite Hm. simpl. split; [done|].
  destruct (retriever q); [|done]. destruct (answer_llm _ q); done.
Qed.

Lemma debug_cell_memory (retriever_k4 retriever_k25 : string -> result (list Document))
    (questions : list string) (m0 : Memory) (docs : list Document) (a : string) :
  retriever_k4 debug_query = Ok docs -> answer_llm docs debug_query = Ok a ->
  debug_cell condense_llm answer_llm retriever_k4 retriever_k25 questions m0 =
    let '(rs, m') := session condense_llm retriever_k25 answer_llm questions []
                       (mkMemory [HumanMessage debug_query; AIMessage a]) in
    (Ok (a, rs), m').
Proof.
  intros Hr Ha. unfold debug_cell, new_memory, bindM at 1. cbv beta.
  destruct (first_turn condense_llm retriever_k4 debug_query (mkMemory []) eq_refl) as [_ Hf].
  unfold bindM at 1. rewrite Hf, Hr, Ha. cbv beta. simpl.
  unfold bindM, ret. destruct (session _ _ _ _ _ _) as [rs m']; done.
Qed.
End Facts.

End ChainFacts.

(* ================================================================== *)
(** * The claims *)

Module Claims.
Import Splitter SplitterFacts Samples.

(** C2 (counterexample): a document longer than [chunk_size] that is a
    single paragraph gives one chunk of 1001 characters, above
    [chunk_size]; and two paragraphs of 600 characters give two chunks
    that share no characters at all, instead of [chunk_overlap] of them. *)
Lemma split_text_oversized_paragraph :
  ~ (forall t : text, chunk_size < length t ->
       forall c, c ∈ split_text t -> length c <= chunk_size) /\
  split_text (para_a ++ separator ++ para_b) = [para_a; para_b] /\
  (forall k, 0 < k -> take k para_b <> drop (length para_a - k) para_a).
Proof.
  split; [|split].
  - intros H.
    assert (Hs : split_text long_line = [long_line]) by (vm_compute; reflexivity).
    specialize (H long_line).
    unfold long_line in H at 1. rewrite length_replicate in H.
    specialize (H ltac:(unfold chunk_size; lia) long_line).
    rewrite Hs in H. specialize (H ltac:(constructor)).
    unfold long_line, chunk_size in H. rewrite length_replicate in H. lia.
  - vm_compute. reflexivity.
  - intros k Hk Heq.
    assert (Hb : take k para_b !! 0 = Some "b"%char).
    { rewrite lookup_take_lt by lia. unfold para_b.
      apply lookup_replicate. split; [done|lia]. }
    assert (Ha : drop (length para_a - k) para_a !! 0 = Some "a"%char).
    { rewrite lookup_drop, Nat.add_0_r. unfold para_a at 2.
      apply lookup_replicate. split; [done|]. unfold para_a. rewrite length_replicate. lia. }
    rewrite Heq, Ha in Hb. discriminate.
Qed.

(** C2 (amended): every chunk has at most [chunk_size] characters, except
    a chunk made of one single separator-free piece, emitted whole; and the
    chunks are obtained from consecutive windows over the pieces, from the
    first piece to the last, where a window starts inside the previous one
    (or right after it) and the pieces two consecutive windows share join to
    at most [chunk_overlap] characters, possibly none. *)
Theorem split_text_chunk_bound_and_windows (t : text) :
  (forall c, c ∈ split_text t ->
     length c <= chunk_size \/
     exists p, p ∈ split_text_with_regex t /\ c = strip p) /\
  exists ws,
    split_text t =
      omap (join_docs separator) (map (window (split_text_with_regex t)) ws) /\
    LocallySorted (carry_over chunk_overlap separator (split_text_with_regex t)) ws /\
    (hd (0, 0) ws).1 = 0 /\
    (List.last ws (0, 0)).2 = length (split_text_with_regex t).
Proof.
  split.
  - intros c Hc. apply (merge_splits_bounded chunk_size chunk_overlap separator
                          _ (split_pieces_nonempty t)). exact Hc.
  - destruct (merge_groups_windows chunk_size chunk_overlap separator
                (split_text_with_regex t) (split_pieces_nonempty t))
      as (ws & Hws & Hch & Hhd & Hlast & _).
    exists ws. split; [unfold split_text, merge_splits; rewrite Hws; done|].
    auto.
Qed.

(** C3 (counterexample): an empty document gives no chunk at all, and a
    short document is stripped of its surrounding whitespace. *)
Lemma split_text_short_not_whole :
  split_text [] = [] /\
  split_text (list_ascii_of_string "  hi ") = [list_ascii_of_string "hi"] /\
  ~ (forall t : text, length t < chunk_size -> split_text t = [t]).
Proof.
  split; [vm_compute; reflexivity|]. split; [vm_compute; reflexivity|].
  intros H. specialize (H [] ltac:(unfold chunk_size; simpl; lia)).
  vm_compute in H. discriminate.
Qed.

(** C3 (amended): a document of at most [chunk_size] characters gives at
    most one chunk: its pieces joined by the separator and stripped of
    surrounding whitespace, none when that is empty; a non-empty document
    with no separator and no surrounding whitespace is its own single chunk. *)
Theorem split_text_short_single_chunk (t : text) :
  length t <= chunk_size ->
  split_text t = option_list (join_docs separator (split_text_with_regex t)) /\
  length (split_text t) <= 1 /\
  (t <> [] -> strip t = t -> split_text_with_regex t = [t] -> split_text t = [t]).
Proof.
  intros Hlen.
  assert (Hs : split_text t = option_list (join_docs separator (split_text_with_regex t))).
  { unfold split_text, merge_splits.
    rewrite (merge_groups_fits chunk_size chunk_overlap separator)
      by (pose proof (split_pieces_length t); lia).
    simpl. destruct (join_docs separator _); reflexivity. }
  split; [exact Hs|]. split.
  - rewrite Hs. destruct (join_docs _ _); simpl; lia.
  - intros Hne Hstrip Hpieces. rewrite Hs, Hpieces.
    unfold join_docs. simpl. rewrite Hstrip.
    destruct t; [congruence|reflexivity].
Qed.

Lemma split_text_short_single_chunk_witness :
  length (list_ascii_of_string "hello") <= chunk_size /\
  split_text (list_ascii_of_string "hello") =
    option_list (join_docs separator
                   (split_text_with_regex (list_ascii_of_string "hello"))) /\
  length (split_text (list_ascii_of_string "hello")) <= 1 /\
  (list_ascii_of_string "hello" <> [] ->
   strip (list_ascii_of_string "hello") = list_ascii_of_string "hello" ->
   split_text_with_regex (list_ascii_of_string "hello") = [list_ascii_of_string "hello"] ->
   split_text (list_ascii_of_string "hello") = [list_ascii_of_string "hello"]).
Proof.
  split; [unfold chunk_size; simpl; lia|].
  apply (split_text_short_single_chunk (list_ascii_of_string "hello")).
  unfold chunk_size; simpl; lia.
Defined.

(** ** Loading *)

Import Loader LoaderFacts.

(** C1 (counterexample): the chunk of [knowledge-base/policies/hr/leave.md]
    has doc_type "policies", not its immediate parent folder "hr". *)
Lemma chunk_doc_type_not_parent :
  ~ (forall files chunks c, ingest (Some files) = Ok chunks -> c ∈ chunks ->
       forall e, e ∈ files ->
       metadata c !! "source"%string = Some (path_string (path e)) ->
       metadata c !! "doc_type"%string = Some (parent_folder (path e))).
Proof.
  intros H.
  assert (Hi : ingest (Some nested_files) = Ok [nested_chunk]) by (vm_compute; reflexivity).
  specialize (H _ _ nested_chunk Hi ltac:(constructor)
                (mkFileEntry ["policies"; "hr"; "leave.md"]%string
                   (Some (list_ascii_of_string "Annual leave: 25 days.")))
                ltac:(constructor) ltac:(vm_compute; reflexivity)).
  vm_compute in H. discriminate.
Qed.

(** C1 (amended): every chunk's doc_type is the first-level folder of the
    knowledge base that contains its source file, at whatever depth the
    file is; this is the immediate parent only for files placed directly in
    that folder. *)
Theorem chunk_doc_type_is_top_folder (files : list FileEntry) (chunks : list Document)
    (c : Document) :
  ingest (Some files) = Ok chunks -> c ∈ chunks ->
  exists e folder rest, e ∈ files /\ path e = folder :: rest /\ rest <> [] /\
    metadata c !! "source"%string = Some (path_string (path e)) /\
    metadata c !! "doc_type"%string = Some folder.
Proof.
  intros Hi Hc.
  destruct (ingest_chunk_metadata _ _ _ Hi Hc)
    as (files' & e & folder & rest & Hf & He & Hp & Hne & Hm).
  injection Hf as <-. exists e, folder, rest. rewrite Hm, Hp.
  repeat split; auto.
  all: first [apply lookup_insert_eq | rewrite lookup_insert_ne by done; apply lookup_insert_eq].
Qed.

Lemma chunk_doc_type_is_top_folder_witness :
  ingest (Some nested_files) = Ok [nested_chunk] /\ nested_chunk ∈ [nested_chunk] /\
  exists e folder rest, e ∈ nested_files /\ path e = folder :: rest /\ rest <> [] /\
    metadata nested_chunk !! "source"%string = Some (path_string (path e)) /\
    metadata nested_chunk !! "doc_type"%string = Some folder.
Proof.
  split; [vm_compute; reflexivity|]. split; [constructor|].
  apply (chunk_doc_type_is_top_folder nested_files [nested_chunk] nested_chunk);
    [vm_compute; reflexivity|constructor].
Defined.


(** C10: [add_metadata] updates the document object in place and returns
    the same reference: only the "doc_type" key of its metadata changes,
    its text and its other keys (among them "source") are kept, and no
    other object is touched. *)
Theorem add_metadata_frame (h : gmap nat Document) (r : nat) (doc : Document)
    (doc_type : string) :
  h !! r = Some doc ->
  (add_metadata_ref h r doc_type).2 = r /\
  (add_metadata_ref h r doc_type).1 !! r = Some (add_metadata doc doc_type) /\
  page_content (add_metadata doc doc_type) = page_content doc /\
  metadata (add_metadata doc doc_type) !! "doc_type"%string = Some doc_type /\
  (forall k, k <> "doc_type"%string ->
     metadata (add_metadata doc doc_type) !! k = metadata doc !! k) /\
  (forall r', r' <> r -> (add_metadata_ref h r doc_type).1 !! r' = h !! r').
Proof.
  intros Hr. unfold add_metadata_ref. rewrite Hr. simpl.
  split; [done|]. split; [apply lookup_insert_eq|]. split; [done|].
  split; [apply lookup_insert_eq|]. split.
  - intros k Hk. apply lookup_insert_ne. congruence.
  - intros r' Hr'. apply lookup_insert_ne. congruence.
Qed.

Lemma add_metadata_frame_witness :
  ({[0 := sample_doc]} : gmap nat Document) !! 0 = Some sample_doc /\
  (add_metadata_ref {[0 := sample_doc]} 0 "policies").2 = 0 /\
  (add_metadata_ref {[0 := sample_doc]} 0 "policies").1 !! 0 =
    Some (add_metadata sample_doc "policies") /\
  page_content (add_metadata sample_doc "policies") = page_content sample_doc /\
  metadata (add_metadata sample_doc "policies") !! "doc_type"%string = Some "policies"%string /\
  (forall k, k <> "doc_type"%string ->
     metadata (add_metadata sample_doc "policies") !! k = metadata sample_doc !! k) /\
  (forall r', r' <> 0 ->
     (add_metadata_ref {[0 := sample_doc]} 0 "policies").1 !! r' =
       ({[0 := sample_doc]} : gmap nat Document) !! r').
Proof.
  split; [vm_compute; reflexivity|].
  apply (add_metadata_frame {[0 := sample_doc]} 0 sample_doc "policies").
  vm_compute. reflexivity.
Defined.

(** ** The vector store *)

Import Store StoreFacts.

(** C4 (counterexample): for the empty list of chunks the add raises
    [ValueError] (here on a store that already holds a vector), so the
    rebuild does not yield a store whose count is the number of chunks. *)
Lemma rebuild_empty_chunks_raises :
  rebuild sample_embed stale_store [] = Err (ValueError empty_upsert_msg) /\
  ~ (forall (embed : text -> vector) (st : StoreState) (chunks : list Document),
       exists st1, rebuild embed st chunks = Ok st1 /\ Store.count st1 = length chunks).
Proof.
  split; [reflexivity|].
  intros H. destruct (H sample_embed stale_store []) as (st1 & Hr & _).
  rewrite rebuild_cases in Hr. discriminate.
Qed.

(** C4 (amended): for a non-empty list of chunks, deleting the collection
    (when the directory exists), adding the chunks and counting gives
    exactly the number of chunks, and a second rebuild from the same
    chunks on the resulting store gives the same count. *)
Theorem rebuild_count_exact (embed : text -> vector) (st : StoreState)
    (chunks : list Document) :
  chunks <> [] ->
  exists st1 st2,
    rebuild embed st chunks = Ok st1 /\ Store.count st1 = length chunks /\
    rebuild embed st1 chunks = Ok st2 /\ Store.count st2 = length chunks.
Proof.
  intros Hne.
  destruct (rebuild_ok embed st chunks Hne) as [st1 H1].
  destruct (rebuild_ok embed st1 chunks Hne) as [st2 H2].
  exists st1, st2. split; [exact H1|]. split; [apply (rebuild_count embed st); exact H1|].
  split; [exact H2|]. apply (rebuild_count embed st1). exact H2.
Qed.

Lemma rebuild_count_exact_witness :
  [nested_chunk] <> [] /\
  exists st1 st2,
    rebuild sample_embed stale_store [nested_chunk] = Ok st1 /\
    Store.count st1 = length [nested_chunk] /\
    rebuild sample_embed st1 [nested_chunk] = Ok st2 /\
    Store.count st2 = length [nested_chunk].
Proof.
  assert (H : [nested_chunk] <> []) by discriminate.
  split; [exact H|]. exact (rebuild_count_exact sample_embed stale_store [nested_chunk] H).
Defined.

(** C5: a query for [k] neighbours returns [min k (size of the store)]
    entries, nearest first, and so does the retriever. *)
Theorem retriever_count_and_order (embed : text -> vector)
    (dist : vector -> vector -> Z) (coll : gmap nat Entry) (v : vector) (k : nat) :
  length (query dist coll v k) = min k (size coll) /\
  Sorted (fun a b => (dist v (entry_vec a) <= dist v (entry_vec b))%Z)
    (query dist coll v k) /\
  (forall question, length (retrieve embed dist coll k question) = min k (size coll)).
Proof.
  destruct (query_spec dist coll v k) as [Hl Hs].
  split; [exact Hl|]. split; [exact Hs|].
  intros question. unfold retrieve. rewrite length_map.
  apply (query_spec dist coll _ k).
Qed.

(** ** The chat chain *)

Import Chat ChatFacts.

(** C6: a session of successful turns leaves the earlier messages in
    place and appends each question and answer in order; from an empty
    memory, the history is exactly the N turns. *)
Theorem session_history_in_order
    (condense_llm : list Message -> string -> result string)
    (retriever : string -> result (list Document))
    (answer_llm : list Document -> string -> result string)
    (qs : list string) (ui : list (string * string)) (m m' : Memory)
    (answers : list string) :
  session condense_llm retriever answer_llm qs ui m = (map Ok answers, m') ->
  length answers = length qs /\
  messages m' = messages m ++ turn_messages (zip qs answers) /\
  (messages m = [] -> history m' = zip qs answers /\ length (history m') = length qs).
Proof.
  intros Hs. destruct (session_ok _ _ _ _ _ _ _ _ Hs) as [Hlen Hm].
  split; [exact Hlen|]. split; [exact Hm|].
  intros Hnil. unfold history. rewrite Hm, Hnil. simpl.
  rewrite turns_turn_messages. split; [done|].
  rewrite length_zip. lia.
Qed.

Lemma session_history_in_order_witness :
  session condense_id retrieve_none answer_ok ["q1"; "q2"]%string [] (mkMemory []) =
    (map Ok ["Answer to q1"; "Answer to q2"]%string,
     mkMemory [HumanMessage "q1"; AIMessage "Answer to q1";
               HumanMessage "q2"; AIMessage "Answer to q2"]%string) /\
  length ["Answer to q1"; "Answer to q2"]%string = length ["q1"; "q2"]%string /\
  messages (mkMemory [HumanMessage "q1"; AIMessage "Answer to q1";
                      HumanMessage "q2"; AIMessage "Answer to q2"]%string) =
    messages (mkMemory []) ++
      turn_messages (zip ["q1"; "q2"]%string ["Answer to q1"; "Answer to q2"]%string) /\
  (messages (mkMemory []) = [] ->
   history (mkMemory [HumanMessage "q1"; AIMessage "Answer to q1";
                      HumanMessage "q2"; AIMessage "Answer to q2"]%string) =
     zip ["q1"; "q2"]%string ["Answer to q1"; "Answer to q2"]%string /\
   length (history (mkMemory [HumanMessage "q1"; AIMessage "Answer to q1";
                              HumanMessage "q2"; AIMessage "Answer to q2"]%string)) =
     length ["q1"; "q2"]%string).
Proof.
  split; [reflexivity|].
  apply (session_history_in_order condense_id retrieve_none answer_ok
           ["q1"; "q2"]%string [] (mkMemory [])).
  reflexivity.
Defined.

(** C7: when the chat-completion call of a turn raises, [chat] raises the
    same error and the memory is unchanged; more generally a turn that
    raises at any step records nothing. *)
Theorem failed_llm_call_keeps_memory
    (condense_llm : list Message -> string -> result string)
    (retriever : string -> result (list Document))
    (answer_llm : list Document -> string -> result string)
    (q : string) (ui : list (string * string)) (m : Memory)
    (new_q : string) (docs : list Document) (e : error) :
  standalone_question condense_llm (messages m) q = Ok new_q ->
  retriever new_q = Ok docs ->
  answer_llm docs new_q = Err e ->
  chat condense_llm retriever answer_llm q ui m = (Err e, m) /\
  (forall q' ui' m' e',
     (chat condense_llm retriever answer_llm q' ui' m').1 = Err e' ->
     (chat condense_llm retriever answer_llm q' ui' m').2 = m').
Proof.
  intros Hq Hr Ha. split.
  - unfold chat, chain_invoke, bindM, load_history, lift, ret.
    rewrite Hq, Hr, Ha. reflexivity.
  - intros q' ui' m' e' Herr.
    destruct (chat_cases condense_llm retriever answer_llm q' ui' m')
      as [[a Hc]|[e'' Hc]]; rewrite Hc in Herr |- *; [discriminate|reflexivity].
Qed.

Lemma failed_llm_call_keeps_memory_witness :
  standalone_question condense_id (messages (mkMemory [])) "q" = Ok "q"%string /\
  retrieve_none "q" = Ok [] /\
  answer_down [] "q" = Err (APIError "Connection error.") /\
  chat condense_id retrieve_none answer_down "q" [] (mkMemory []) =
    (Err (APIError "Connection error."), mkMemory []) /\
  (forall q' ui' m' e',
     (chat condense_id retrieve_none answer_down q' ui' m').1 = Err e' ->
     (chat condense_id retrieve_none answer_down q' ui' m').2 = m').
Proof.
  split; [reflexivity|]. split; [reflexivity|]. split; [reflexivity|].
  apply (failed_llm_call_keeps_memory condense_id retrieve_none answer_down
           "q" [] (mkMemory []) "q" []); reflexivity.
Defined.

(** C9: [chat] ignores its [history] argument: two calls that differ only
    in it return the same answer and leave the same memory. *)
Theorem chat_ignores_ui_history
    (condense_llm : list Message -> string -> result string)
    (retriever : string -> result (list Document))
    (answer_llm : list Document -> string -> result string)
    (q : string) (h1 h2 : list (string * string)) (m : Memory) :
  chat condense_llm retriever answer_llm q h1 m =
  chat condense_llm retriever answer_llm q h2 m.
Proof. reflexivity. Qed.

End Claims.

(* ================================================================== *)
(** * Further properties of the code *)

Module Extras.
Import Splitter SplitterFacts TextFacts CoverFacts PieceFacts Samples.

(** X1: [re.split] at "\n\n" cuts the text into pieces that hold no
    "\n\n" and that, joined again with "\n\n", give back the text. *)
Theorem re_split_round_trip (t : text) :
  join separator (re_split_nn [] t) = t /\
  forall p, p ∈ re_split_nn [] t -> ~ infix separator p.
Proof.
  split.
  - apply (join_re_split_nn (length t) t [] (le_n _)).
  - apply (re_split_nn_pieces (length t) t [] (le_n _)).
    split; [apply infix_nil_pair|]. intros c0 c1 r0 r1 H. discriminate.
Qed.

(** X3: no paragraph with visible text is lost: each one appears, stripped,
    as a contiguous part of some chunk. *)
Theorem split_text_keeps_paragraphs (t p : text) :
  p ∈ split_text_with_regex t -> strip p <> [] ->
  exists c, c ∈ split_text t /\ infix (strip p) c.
Proof. apply split_text_cover. Qed.

Lemma split_text_keeps_paragraphs_witness :
  ["a"%char] ∈ split_text_with_regex ["a"%char; newline; newline; "b"%char] /\
  strip ["a"%char] <> [] /\
  exists c, c ∈ split_text ["a"%char; newline; newline; "b"%char] /\ infix (strip ["a"%char]) c.
Proof.
  assert (H1 : ["a"%char] ∈ split_text_with_regex ["a"%char; newline; newline; "b"%char])
    by (vm_compute; constructor).
  assert (H2 : strip ["a"%char] <> []) by (vm_compute; discriminate).
  split; [exact H1|]. split; [exact H2|].
  exact (split_text_keeps_paragraphs _ _ H1 H2).
Defined.

(** X4: the splitter gives no chunk exactly when the text is empty or
    whitespace only. *)
Theorem split_text_empty_iff_blank (t : text) :
  split_text t = [] <-> forallb is_space t = true.
Proof. apply split_text_blank. Qed.

Import Loader.

(** X5: documents with blank text contribute no chunk, and every other
    document contributes at least one chunk that carries its metadata. *)
Theorem split_documents_blank_docs (docs : list Document) :
  split_documents docs =
    split_documents (List.filter (fun d => negb (forallb is_space (page_content d))) docs) /\
  forall d, d ∈ docs -> forallb is_space (page_content d) = false ->
    exists c, c ∈ split_documents docs /\ metadata c = metadata d.
Proof.
  split.
  - induction docs as [|d docs IH]; [done|]. simpl.
    destruct (forallb is_space (page_content d)) eqn:Hb; simpl.
    + apply split_text_blank in Hb. rewrite Hb. exact IH.
    + unfold split_documents in *. simpl. rewrite IH. done.
  - intros d Hd Hb.
    destruct (split_text (page_content d)) as [|c0 cs] eqn:Hs.
    + apply split_text_blank in Hs. congruence.
    + exists (mkDocument c0 (metadata d)). split; [|done].
      unfold split_documents. apply list_elem_of_In, in_flat_map.
      exists d. split; [apply list_elem_of_In; exact Hd|]. rewrite Hs. left. done.
Qed.

Import LoaderFacts IngestFacts SourceFacts.

(** X6: ingestion succeeds exactly when every visible entry of the
    knowledge-base root is a folder and every file picked under it can be
    decoded; in particular a visible plain file at the root makes it raise. *)
Theorem ingest_succeeds_iff (files : list FileEntry) :
  ((exists chunks, ingest (Some files) = Ok chunks) <->
   forall f, f ∈ root_entries (Some files) ->
     is_dir files f = true /\ forall e, e ∈ files -> selected f e = true -> contents e <> None) /\
  (forall e n, e ∈ files -> path e = [n] -> is_hidden n = false -> is_dir files n = false ->
     exists err, ingest (Some files) = Err err).
Proof.
  split; [apply ingest_ok_iff|].
  intros e n He Hp Hh Hd.
  destruct (ingest (Some files)) as [chunks|err] eqn:Hi; [|eauto].
  exfalso. destruct (proj1 (ingest_ok_iff files) (ex_intro _ chunks Hi) n) as [Hn _]; [|congruence].
  apply list_elem_of_In, root_entries_in. split; [exact Hh|].
  exists e, []. split; [apply list_elem_of_In; exact He|exact Hp].
Qed.

(** X7: on success there is one document per visible markdown file inside a
    visible first-level folder, at any depth, with that file as its source;
    other files give none. *)
Theorem load_documents_one_per_file (files : list FileEntry) (docs : list Document) :
  load_documents (Some files) = Ok docs ->
  length docs = length (List.filter in_scope files) /\
  map (fun d => metadata d !! "source"%string) docs ≡ₚ
    map (fun e => Some (path_string (path e))) (List.filter in_scope files).
Proof.
  intros H. split; [apply load_documents_count; exact H|].
  apply load_documents_sources. exact H.
Qed.

Lemma load_documents_one_per_file_witness :
  exists docs, load_documents (Some mixed_files) = Ok docs /\
  length docs = length (List.filter in_scope mixed_files) /\
  map (fun d => metadata d !! "source"%string) docs ≡ₚ
    map (fun e => Some (path_string (path e))) (List.filter in_scope mixed_files).
Proof.
  eexists. split; [reflexivity|].
  apply (load_documents_one_per_file mixed_files). reflexivity.
Defined.

(** X8: a file that no loader picks and that adds no folder (under a hidden
    root name, or a non-markdown or hidden file inside an existing folder)
    does not change ingestion, even when it cannot be decoded. *)
Theorem ingest_ignores_unpicked_file (e : FileEntry) (files : list FileEntry) (n : string)
    (rest : list string) :
  path e = n :: rest ->
  is_hidden n = true \/
  (is_dir files n = true /\
   (is_md (List.last rest ""%string) = false \/ existsb is_hidden rest = true)) ->
  ingest (Some (e :: files)) = ingest (Some files).
Proof. apply ignored_file. Qed.

Lemma ingest_ignores_unpicked_file_witness :
  path logo_file = "policies"%string :: ["banner.png"%string] /\
  (is_hidden "policies" = true \/
   (is_dir mixed_files "policies" = true /\
    (is_md (List.last ["banner.png"%string] ""%string) = false \/
     existsb is_hidden ["banner.png"%string] = true))) /\
  ingest (Some (logo_file :: mixed_files)) = ingest (Some mixed_files).
Proof.
  assert (H1 : path logo_file = "policies"%string :: ["banner.png"%string]) by reflexivity.
  assert (H2 : is_hidden "policies" = true \/
               (is_dir mixed_files "policies" = true /\
                (is_md (List.last ["banner.png"%string] ""%string) = false \/
                 existsb is_hidden ["banner.png"%string] = true)))
    by (right; split; [reflexivity|left; vm_compute; reflexivity]).
  split; [exact H1|]. split; [exact H2|].
  exact (ingest_ignores_unpicked_file logo_file mixed_files _ _ H1 H2).
Defined.

Import Store StoreFacts VectorFacts.

(** X9: a non-empty list of chunks is stored by the embedding cell: the
    collection then holds exactly the chunks, each with the embedding of
    its text, and nothing from before. *)
Theorem rebuild_holds_exactly_chunks (embed : text -> vector) (st : StoreState)
    (chunks : list Document) :
  chunks <> [] ->
  exists st1, rebuild embed st chunks = Ok st1 /\
    map snd (map_to_list (open_collection (disk st1))) ≡ₚ
      map (fun c => mkEntry c (embed (page_content c))) chunks.
Proof.
  intros Hne. destruct (rebuild_ok embed st chunks Hne) as [st1 H].
  exists st1. split; [exact H|]. apply (rebuild_values embed st). exact H.
Qed.

Lemma rebuild_holds_exactly_chunks_witness :
  [nested_chunk] <> [] /\
  exists st1, rebuild sample_embed stale_store [nested_chunk] = Ok st1 /\
    map snd (map_to_list (open_collection (disk st1))) ≡ₚ
      map (fun c => mkEntry c (sample_embed (page_content c))) [nested_chunk].
Proof.
  assert (H : [nested_chunk] <> []) by discriminate.
  split; [exact H|]. exact (rebuild_holds_exactly_chunks sample_embed stale_store [nested_chunk] H).
Defined.

(** X10: without the deletion, [Chroma.from_documents] of a non-empty list
    of chunks on an existing store keeps its vectors and adds the chunks to
    them. *)
Theorem from_documents_keeps_old_vectors (embed : text -> vector) (st : StoreState)
    (chunks : list Document) :
  chunks <> [] ->
  (forall i, next_uuid st <= i -> open_collection (disk st) !! i = None) ->
  exists st1, from_documents embed st chunks = Ok st1 /\
    map snd (map_to_list (open_collection (disk st1))) ≡ₚ
      map snd (map_to_list (open_collection (disk st))) ++
      map (fun c => mkEntry c (embed (page_content c))) chunks /\
    Store.count st1 = Store.count st + length chunks.
Proof.
  intros Hne Hfresh. exists (store_chunks embed st chunks).
  split; [unfold from_documents; destruct chunks; [congruence|reflexivity]|].
  split; [apply store_chunks_values; exact Hfresh|].
  unfold Store.count. rewrite <- !length_map_to_list.
  rewrite <- (length_map snd (map_to_list (open_collection (disk (store_chunks embed st chunks))))).
  rewrite (store_chunks_values embed st chunks Hfresh).
  rewrite length_app, !length_map. done.
Qed.

Lemma from_documents_keeps_old_vectors_witness :
  [sample_doc] <> [] /\
  (forall i, next_uuid stale_store <= i -> open_collection (disk stale_store) !! i = None) /\
  exists st1, from_documents sample_embed stale_store [sample_doc] = Ok st1 /\
    map snd (map_to_list (open_collection (disk st1))) ≡ₚ
      map snd (map_to_list (open_collection (disk stale_store))) ++
      map (fun c => mkEntry c (sample_embed (page_content c))) [sample_doc] /\
    Store.count st1 = Store.count stale_store + length [sample_doc].
Proof.
  assert (H1 : [sample_doc] <> []) by discriminate.
  assert (H2 : forall i, next_uuid stale_store <= i -> open_collection (disk stale_store) !! i = None).
  { intros i Hi. simpl in Hi. simpl. apply lookup_singleton_ne. lia. }
  split; [exact H1|]. split; [exact H2|].
  exact (from_documents_keeps_old_vectors sample_embed stale_store [sample_doc] H1 H2).
Defined.

(** X12: after the embedding cell has stored a non-empty list of chunks,
    the cell that investigates the vectors does not raise: it reports the
    number of chunks and the embedding dimension. *)
Theorem inspect_vectors_after_rebuild (embed : text -> vector) (st : StoreState)
    (chunks : list Document) (dim : nat) :
  chunks <> [] ->
  (forall t, length (embed t) = dim) ->
  exists st1, rebuild embed st chunks = Ok st1 /\
    inspect_vectors st1 = Some (length chunks, dim).
Proof.
  intros Hne Hdim. destruct (rebuild_ok embed st chunks Hne) as [st1 H].
  exists st1. split; [exact H|]. apply (inspect_after_rebuild embed st); assumption.
Qed.

Lemma inspect_vectors_after_rebuild_witness :
  [nested_chunk] <> [] /\ (forall t, length (sample_embed t) = 2) /\
  exists st1, rebuild sample_embed (mkStoreState NoDir 0) [nested_chunk] = Ok st1 /\
    inspect_vectors st1 = Some (1, 2).
Proof.
  assert (H1 : [nested_chunk] <> []) by discriminate.
  assert (H2 : forall t, length (sample_embed t) = 2) by (intros t; reflexivity).
  split; [exact H1|]. split; [exact H2|].
  exact (inspect_vectors_after_rebuild sample_embed (mkStoreState NoDir 0) [nested_chunk] 2 H1 H2).
Defined.

Import Chat ChatFacts ChainFacts.

(** X13: on the first turn (empty memory) the condensing call is not made:
    the retriever and the answering call get the user's question verbatim,
    and a success saves exactly that question and answer. *)
Theorem first_turn_uses_question_verbatim
    (condense_llm condense_llm' : list Message -> string -> result string)
    (retriever : string -> result (list Document))
    (answer_llm : list Document -> string -> result string) (q : string) (m : Memory) :
  messages m = [] ->
  chain_invoke condense_llm retriever answer_llm q m =
    chain_invoke condense_llm' retriever answer_llm q m /\
  chain_invoke condense_llm retriever answer_llm q m =
    match retriever q with
    | Err e => (Err e, m)
    | Ok docs =>
        match answer_llm docs q with
        | Err e => (Err e, m)
        | Ok a => (Ok a, mkMemory [HumanMessage q; AIMessage a])
        end
    end.
Proof. apply first_turn. Qed.

Lemma first_turn_uses_question_verbatim_witness :
  messages (mkMemory []) = [] /\
  chain_invoke condense_id retrieve_none answer_ok "q" (mkMemory []) =
    chain_invoke condense_down retrieve_none answer_ok "q" (mkMemory []) /\
  chain_invoke condense_id retrieve_none answer_ok "q" (mkMemory []) =
    match retrieve_none "q" with
    | Err e => (Err e, mkMemory [])
    | Ok docs =>
        match answer_ok docs "q" with
        | Err e => (Err e, mkMemory [])
        | Ok a => (Ok a, mkMemory [HumanMessage "q"; AIMessage a])
        end
    end.
Proof.
  assert (H : messages (mkMemory []) = []) by reflexivity.
  split; [exact H|].
  exact (first_turn_uses_question_verbatim condense_id condense_down retrieve_none answer_ok "q" _ H).
Defined.

(** X14: the Gradio chat of the debugging cell shares [memory] with the
    debugging query: once the query is answered, the chat starts from that
    turn; when its turns succeed, its history lists that turn first; the
    first question typed is condensed against that turn, and when that
    condensing call raises, the turn shows the error, the memory keeps only
    the debugging turn, and the next questions are served from there. *)
Theorem debug_cell_shares_memory
    (condense_llm : list Message -> string -> result string)
    (answer_llm : list Document -> string -> result string)
    (retriever_k4 retriever_k25 : string -> result (list Document))
    (questions : list string) (m0 : Memory) (docs : list Document) (a : string) :
  retriever_k4 debug_query = Ok docs -> answer_llm docs debug_query = Ok a ->
  debug_cell condense_llm answer_llm retriever_k4 retriever_k25 questions m0 =
    (let '(rs, m') := session condense_llm retriever_k25 answer_llm questions []
                        (mkMemory [HumanMessage debug_query; AIMessage a]) in
     (Ok (a, rs), m')) /\
  (forall answers m',
     session condense_llm retriever_k25 answer_llm questions []
       (mkMemory [HumanMessage debug_query; AIMessage a]) = (map Ok answers, m') ->
     history m' = (debug_query, a) :: zip questions answers) /\
  (forall q1 qs e, questions = q1 :: qs ->
     condense_llm [HumanMessage debug_query; AIMessage a] q1 = Err e ->
     exists rs m',
       debug_cell condense_llm answer_llm retriever_k4 retriever_k25 questions m0 =
         (Ok (a, Err e :: rs), m') /\
       session condense_llm retriever_k25 answer_llm qs []
         (mkMemory [HumanMessage debug_query; AIMessage a]) = (rs, m')).
Proof.
  intros Hr Ha. rewrite (debug_cell_memory condense_llm answer_llm _ _ questions m0 docs a Hr Ha).
  split; [done|]. split.
  - intros answers m' Hs.
    destruct (session_ok _ _ _ _ _ _ _ _ Hs) as [Hlen Hm].
    unfold history. rewrite Hm. simpl. rewrite turns_turn_messages. done.
  - intros q1 qs e -> He.
    destruct (session condense_llm retriever_k25 answer_llm qs []
                (mkMemory [HumanMessage debug_query; AIMessage a])) as [rs m'] eqn:Hs.
    exists rs, m'. split; [|done]. simpl.
    unfold chat, chain_invoke, bindM, load_history, lift, ret. simpl.
    rewrite He. simpl. rewrite Hs. done.
Qed.

Lemma debug_cell_shares_memory_witness :
  retrieve_none debug_query = Ok [] /\
  answer_ok [] debug_query = Ok ("Answer to " ++ debug_query)%string /\
  condense_down [HumanMessage debug_query; AIMessage ("Answer to " ++ debug_query)] "q1" =
    Err (APIError "Rate limit reached.") /\
  exists rs m',
    debug_cell condense_down answer_ok retrieve_none retrieve_none ["q1"; "q2"]%string
      (mkMemory []) =
      (Ok (("Answer to " ++ debug_query)%string, Err (APIError "Rate limit reached.") :: rs), m') /\
    session condense_down retrieve_none answer_ok ["q2"%string] []
      (mkMemory [HumanMessage debug_query; AIMessage ("Answer to " ++ debug_query)]) = (rs, m').
Proof.
  assert (H1 : retrieve_none debug_query = Ok []) by reflexivity.
  assert (H2 : answer_ok [] debug_query = Ok ("Answer to " ++ debug_query)%string) by reflexivity.
  assert (H3 : condense_down [HumanMessage debug_query; AIMessage ("Answer to " ++ debug_query)] "q1" =
                 Err (APIError "Rate limit reached.")) by reflexivity.
  split; [exact H1|]. split; [exact H2|]. split; [exact H3|].
  destruct (debug_cell_shares_memory condense_down answer_ok retrieve_none retrieve_none
              ["q1"; "q2"]%string (mkMemory []) [] _ H1 H2) as [_ [_ H]].
  exact (H "q1"%string ["q2"%string] _ eq_refl H3).
Defined.

End Extras.
